(** * andersleno notebooks: the weak-acid pH solver, the ESOL data
      preparation cells, the fingerprint environment helpers and the
      frontier-orbital search.

    The pH solver computes with IEEE doubles and is modelled on them
    ([float], the primitive binary64 numbers): products that overflow,
    divisions by zero and nan behave as in the notebook.  What the notebook
    leaves to libraries stays a parameter of the solver: the C library's
    [pow], [numpy.log10], [numpy.roots], the floating-point errors numpy
    turns into RuntimeWarnings, and what numpy does with an array of
    complex roots.  Nothing is assumed about these parameters except where
    a statement says so.  The arguments of the two pH functions are floats
    (Python floats or numpy float64 scalars), and [np.vectorize] is
    modelled on one scalar input.  The mathematics of the two cubics is
    stated separately, over the real numbers.

    The other cells compare numbers without rounding them and are modelled
    over the real numbers ([R]).  Printing, warnings, files and HTTP
    requests are effects on an explicit [World]. *)

From Stdlib Require Import Floats Reals Lra Psatz QArith.
From stdpp Require Import gmap strings list pretty sorting.

#[local] Set Warnings "-clear-no-such-hyp".
#[local] Set Warnings "-inexact-float".

(** ** Observable environment of a notebook run *)

(** Exceptions raised by the modelled cells. *)
Inductive exn : Type :=
  | ValueError          (* raise ValueError("No positive roots!") *)
  | IndexError          (* [0] on an empty selection *)
  | ZeroDivisionError   (* float / 0.0 on Python floats *)
  | OverflowError       (* float ** 2 out of the double range *)
  | LinAlgError         (* numpy.roots on a coefficient that is inf or nan *)
  | RuntimeError        (* RDKit: atom or bond index out of range *)
  | NameError           (* a global name that is not bound *)
  | IsADirectoryError   (* open(path, "w") on a directory *)
  | ConnectionError.    (* session.get could not reach the server *)

(** The floating-point errors numpy reports, and the numpy functions the
    solver calls. *)
Inductive fp_error : Type := divide_by_zero | overflow | underflow | invalid_value.

Inductive ufunc : Type :=
  | Multiply | Add | Subtract | TrueDivide | Power | Less | Greater
  | Sqrt | Log10 | IsClose.

(** What is passed to [warnings.warn]: the three messages of the two checks,
    each with the values interpolated in its f-string, and the
    RuntimeWarning numpy issues itself ("divide by zero encountered in
    divide"). *)
Inductive warning : Type :=
  | Unphysical_A (c_A c_ha_zero ka : float)
  | Unphysical_HA (c_HA c_ha_zero ka : float)
  | Inconsistent (c_ha_zero found expected : float)
  | RuntimeWarning (e : fp_error) (f : ufunc).

(** An RDKit molecule, as far as the notebooks look at it. *)
Record Atom : Type := { GetIsAromatic : bool; IsInRing : bool }.

Record Bond : Type := { GetBeginAtomIdx : nat; GetEndAtomIdx : nat }.

Record Mol : Type := {
  mol_atoms : list Atom;
  mol_bonds : list Bond;
  GetNumConformers : nat
}.

Inductive node : Type :=
  | File (text : string)
  | Directory.

Record response : Type := { status_code : nat; text : string }.

Record World : Type := {
  files : gmap string node;            (* path -> what is there *)
  remote : string -> option response;  (* url -> answer; None: unreachable *)
  requests : list string;              (* urls fetched so far *)
  stdout : list string;                (* lines printed so far *)
  warned : list warning                (* what was passed to warnings.warn so
                                          far, shown by the filters or not *)
}.

Definition set_files (w : World) (fs : gmap string node) : World :=
  {| files := fs; remote := remote w; requests := requests w;
     stdout := stdout w; warned := warned w |}.

Definition set_requests (w : World) (rs : list string) : World :=
  {| files := files w; remote := remote w; requests := rs;
     stdout := stdout w; warned := warned w |}.

Definition set_stdout (w : World) (out : list string) : World :=
  {| files := files w; remote := remote w; requests := requests w;
     stdout := out; warned := warned w |}.

Definition set_warned (w : World) (ws : list warning) : World :=
  {| files := files w; remote := remote w; requests := requests w;
     stdout := stdout w; warned := ws |}.

(** State and exception monad over [World]. *)
Definition M (A : Type) : Type := World -> World * (exn + A).

Definition ret {A} (a : A) : M A := fun w => (w, inr a).

Definition raise {A} (e : exn) : M A := fun w => (w, inl e).

Definition bind {A B} (m : M A) (k : A -> M B) : M B :=
  fun w =>
    match m w with
    | (w', inr a) => k a w'
    | (w', inl e) => (w', inl e)
    end.

Notation "'do' x <- m ;; k" := (bind m (fun x => k))
  (at level 10, x name, m at level 99, k at level 200).
Notation "'run' m ;; k" := (bind m (fun _ => k))
  (at level 10, m at level 99, k at level 200).

Definition lift {A} (r : exn + A) : M A := fun w => (w, r).

Definition warn (msg : warning) : M unit :=
  fun w => (set_warned w (warned w ++ [msg]), inr tt).

Definition print (line : string) : M unit :=
  fun w => (set_stdout w (stdout w ++ [line]), inr tt).

Definition when (b : bool) (m : M unit) : M unit :=
  if b then m else ret tt.

(** [yields m ws r]: from every world, [m] issues the warnings [ws], touches
    nothing else, and ends in [r]. *)
Definition yields {A} (m : M A) (ws : list warning) (r : exn + A) : Prop :=
  forall w, m w = (set_warned w (warned w ++ ws), r).

(** The warnings of the notebook's own [warnings.warn] calls among [ws]. *)
Definition user_warnings (ws : list warning) : list warning :=
  List.filter (fun x => match x with RuntimeWarning _ _ => false | _ => true end) ws.

Definition empty_world : World :=
  {| files := ∅; remote := fun _ => None; requests := []; stdout := [];
     warned := [] |}.

(** [ends m uws r]: from every world, [m] ends in [r]; on the way it calls
    [warnings.warn] for the messages [uws] of the notebook (and numpy may
    issue RuntimeWarnings in between), and it touches nothing else. *)
Definition ends {A} (m : M A) (uws : list warning) (r : exn + A) : Prop :=
  exists ws, yields m ws r /\ user_warnings ws = uws.

(** A double, read through its specification, is nan or carries the sign
    [s] (true: minus); a zero counts for both signs. *)
Definition sign_or_nan (s : bool) (x : spec_float) : Prop :=
  match x with
  | S754_zero _ | S754_nan => True
  | S754_infinity sx | S754_finite sx _ _ => sx = s
  end.

(** ** The pH solver (notebook "Calculating the pH in a weak acid") *)

(** *** The polynomials of the notebook over the real numbers *)

(** Value of the polynomial with coefficients [p] (highest power first). *)
Definition polyval (p : list R) (x : R) : R :=
  fold_left (fun acc a => acc * x + a)%R p 0%R.

(** The coefficient lists [poly], [poly_h] and [poly_oh] of the two
    functions, read as real numbers (nothing is rounded here). *)
Definition poly (c_ha_zero ka : R) : list R :=
  [1; ka; - ka * c_ha_zero]%R.

Definition poly_h (c_ha_zero ka kw : R) : list R :=
  [1; ka; - (kw + ka * c_ha_zero); - ka * kw]%R.

Definition poly_oh (c_ha_zero kb kw : R) : list R :=
  [1; c_ha_zero + kb; - kw; - kb * kw]%R.

(** *** The two functions on doubles *)

(** [np.vectorize] calls the function it wraps twice on a scalar input:
    once on the arguments as numpy float64 scalars, to learn the type of the
    output, and once more on the same arguments as Python floats, for the
    value.  The arithmetic gives the same doubles both times; what differs is
    how an error is reported (numpy: a RuntimeWarning and inf or nan;
    Python: an exception on [/ 0.0] and on an overflowing [**]). *)
Inductive scalar : Type := NumpyFloat64 | PythonFloat.

(** What [numpy.roots] returns: an array of doubles, or of complex numbers
    when some eigenvalue of the companion matrix has an imaginary part. *)
Inductive ndarray : Type :=
  | float64 (xs : list float)
  | complex128 (zs : list (float * float)).

Inductive number : Type :=
  | Float64 (x : float)
  | Complex128 (re im : float).

Section Solver.
Local Open Scope float_scope.

(** Library routines, parameters of the solver: the C library's [pow]
    (behind [**] in CPython and in numpy), [numpy.log10] on a double,
    [numpy.roots] (coefficients, highest power first; it raises LinAlgError
    on a coefficient that is not finite), and the floating-point errors numpy
    reports for one call under its default error state. *)
Variable pow : float -> float -> float.
Variable np_log10 : float -> float.
Variable np_roots : list float -> exn + ndarray.
Variable np_errstate : ufunc -> list float -> list fp_error.

(** What [calculate_ph_full] goes on to do with a complex array of roots:
    complex arithmetic of numpy, which is not modelled. *)
Variable complex_roots_h complex_roots_oh
  : scalar -> float -> float -> float -> list (float * float) -> M number.

(** One call of a numpy function on doubles: the value, and a
    RuntimeWarning for each error numpy reports. *)
Definition np {A} (f : ufunc) (args : list float) (v : A) : M A :=
  fun w =>
    (set_warned w (warned w ++ ((fun e => RuntimeWarning e f) <$> np_errstate f args)),
     inr v).

(** [a * b], [a + b], [a - b]: silent on Python floats. *)
Definition arith (k : scalar) (f : ufunc) (op : float -> float -> float)
    (a b : float) : M float :=
  match k with
  | PythonFloat => ret (op a b)
  | NumpyFloat64 => np f [a; b] (op a b)
  end.

(** [a / b] *)
Definition truediv (k : scalar) (a b : float) : M float :=
  match k with
  | PythonFloat => if b =? 0 then raise ZeroDivisionError else ret (a / b)
  | NumpyFloat64 => np TrueDivide [a; b] (a / b)
  end.

(** [a < b] *)
Definition less (k : scalar) (a b : float) : M bool :=
  match k with
  | PythonFloat => ret (a <? b)
  | NumpyFloat64 => np Less [a; b] (a <? b)
  end.

(** The double [x ** 2] evaluates to.  CPython settles nan, the
    infinities, zero, 1 and -1 itself and hands |x| to [pow] otherwise;
    numpy hands x to [pow], for which C99 (Annex F) fixes the same values in
    those cases, and the even exponent drops the sign. *)
Definition square (x : float) : float :=
  if is_nan x then x
  else if is_infinity x then infinity
  else if x =? 0 then 0
  else if PrimFloat.abs x =? 1 then 1
  else pow (PrimFloat.abs x) 2.

(** CPython raises OverflowError when [pow] returns an infinity for a
    finite x. *)
Definition square_overflows (x : float) : bool :=
  negb (is_nan x) && negb (is_infinity x) && negb (x =? 0) &&
  negb (PrimFloat.abs x =? 1) && is_infinity (pow (PrimFloat.abs x) 2).

(** [x ** 2] *)
Definition pow2 (k : scalar) (x : float) : M float :=
  match k with
  | PythonFloat =>
      if square_overflows x then raise OverflowError else ret (square x)
  | NumpyFloat64 => np Power [x; 2] (square x)
  end.

(** [np.isclose(a, b, atol=atol)] with the default rtol = 1e-5: the
    tolerance test when both are finite, equality otherwise. *)
Definition rtol : float := 1e-5.

Definition np_isclose (a b atol : float) : bool :=
  if is_finite a && is_finite b then PrimFloat.abs (a - b) <=? atol + rtol * PrimFloat.abs b
  else a =? b.

(** [roots[roots > 0]] *)
Definition positive (roots : list float) : list float :=
  List.filter (fun r => 0 <? r) roots.

(** [xs[0]] *)
Definition item0 (xs : list float) : M float :=
  match xs with
  | x :: _ => ret x
  | [] => raise IndexError
  end.

(** [-np.log10(x)] *)
Definition neg_log10 (x : float) : M float :=
  do l <- np Log10 [x] (np_log10 x) ;;
  ret (- l).

(** The function [np.vectorize] wraps, on arguments of kind [k]. *)
Definition calculate_ph_approximate_pyfunc (k : scalar) (c_ha_zero ka : float)
  : M float :=
  do p2 <- arith k Multiply PrimFloat.mul (- ka) c_ha_zero ;;
  let poly := [1; ka; p2] in
  do sq <- pow2 k (nth 1 poly 0) ;;
  do t <- arith k Multiply PrimFloat.mul (4 * nth 0 poly 0) (nth 2 poly 0) ;;
  do discriminant <- arith k Subtract PrimFloat.sub sq t ;;
  do negative <- less k discriminant 0 ;;
  if negative then raise ValueError
  else
    do r <- np Sqrt [discriminant] (PrimFloat.sqrt discriminant) ;;
    do s <- np Add [- nth 1 poly 0; r] (- nth 1 poly 0 + r) ;;
    do x <- np TrueDivide [s; 2 * nth 0 poly 0] (s / (2 * nth 0 poly 0)) ;;
    neg_log10 x.

(** The two calls [np.vectorize] makes on a scalar input. *)
Definition vectorize {A} (pyfunc : scalar -> M A) : M A :=
  run pyfunc NumpyFloat64 ;;
  pyfunc PythonFloat.

Definition calculate_ph_approximate (c_ha_zero ka : float) : M float :=
  vectorize (fun k => calculate_ph_approximate_pyfunc k c_ha_zero ka).

(** [x] is a numpy float64 (an entry of the array of roots) at both call
    sites of the two checks, so the arithmetic on it is numpy's. *)
Definition check_solution_acid (c_ha_zero ka kw x : float) (print_warning : bool)
  : M nat :=
  do c_OH <- np TrueDivide [kw; x] (kw / x) ;;
  do c_A <- np Subtract [x; c_OH] (x - c_OH) ;;
  let w := 0%nat in
  do negative <- np Less [c_A; 0] (c_A <? 0) ;;
  do w <- (if negative then
          run when print_warning (warn (Unphysical_A c_A c_ha_zero ka)) ;;
          ret (w + 1)%nat
        else ret w) ;;
  do c_HA <- np Subtract [c_ha_zero; c_A] (c_ha_zero - c_A) ;;
  do negative <- np Less [c_HA; 0] (c_HA <? 0) ;;
  do w <- (if negative then
          run when print_warning (warn (Unphysical_HA c_HA c_ha_zero ka)) ;;
          ret (w + 1)%nat
        else ret w) ;;
  do p <- np Multiply [x; c_A] (x * c_A) ;;
  do ka_ <- np TrueDivide [p; c_HA] (p / c_HA) ;;
  do close <- np IsClose [ka_; ka] (np_isclose ka_ ka 1e-6) ;;
  do w <- (if negb close then
          run when print_warning (warn (Inconsistent c_ha_zero ka_ ka)) ;;
          ret (w + 1)%nat
        else ret w) ;;
  ret w.

Definition check_solution_base (k : scalar) (c_ha_zero ka kw x : float)
    (print_warning : bool) : M nat :=
  do c_H <- np TrueDivide [kw; x] (kw / x) ;;
  do c_A <- np Subtract [c_H; x] (c_H - x) ;;
  let w := 0%nat in
  do negative <- np Less [c_A; 0] (c_A <? 0) ;;
  do w <- (if negative then
          run when print_warning (warn (Unphysical_A c_A c_ha_zero ka)) ;;
          ret (w + 1)%nat
        else ret w) ;;
  do c_HA <- np Subtract [c_ha_zero; c_A] (c_ha_zero - c_A) ;;
  do negative <- np Less [c_HA; 0] (c_HA <? 0) ;;
  do w <- (if negative then
          run when print_warning (warn (Unphysical_HA c_HA c_ha_zero ka)) ;;
          ret (w + 1)%nat
        else ret w) ;;
  do kb <- truediv k kw ka ;;
  do p <- np Multiply [x; c_HA] (x * c_HA) ;;
  do kb_ <- np TrueDivide [p; c_A] (p / c_A) ;;
  do close <- np IsClose [kb_; kb] (np_isclose kb_ kb 1e-6) ;;
  do w <- (if negb close then
          run when print_warning (warn (Inconsistent c_ha_zero kb_ kb)) ;;
          ret (w + 1)%nat
        else ret w) ;;
  ret w.

Definition calculate_ph_full_pyfunc (k : scalar) (c_ha_zero ka kw : float)
  : M number :=
  do t <- arith k Multiply PrimFloat.mul ka c_ha_zero ;;
  do s <- arith k Add PrimFloat.add kw t ;;
  do p3 <- arith k Multiply PrimFloat.mul (- ka) kw ;;
  let poly_h := [1; ka; - s; p3] in
  do roots_h <- lift (np_roots poly_h) ;;
  match roots_h with
  | complex128 zs => complex_roots_h k c_ha_zero ka kw zs
  | float64 roots_h =>
      do selected <- np Greater roots_h (positive roots_h) ;;
      do x_h <- item0 selected ;;
      do w <- check_solution_acid c_ha_zero ka kw x_h false ;;
      if (0 <? w)%nat then
        do kb <- truediv k kw ka ;;
        do q <- arith k Add PrimFloat.add c_ha_zero kb ;;
        do p3 <- arith k Multiply PrimFloat.mul (- kb) kw ;;
        let poly_oh := [1; q; - kw; p3] in
        do roots_oh <- lift (np_roots poly_oh) ;;
        match roots_oh with
        | complex128 zs => complex_roots_oh k c_ha_zero ka kw zs
        | float64 roots_oh =>
            do selected <- np Greater roots_oh (positive roots_oh) ;;
            do x_oh <- item0 selected ;;
            do x_h <- np TrueDivide [kw; x_oh] (kw / x_oh) ;;
            run check_solution_base k c_ha_zero ka kw x_oh true ;;
            do pH <- neg_log10 x_h ;;
            ret (Float64 pH)
        end
      else
        do pH <- neg_log10 x_h ;;
        ret (Float64 pH)
  end.

Definition calculate_ph_full (c_ha_zero ka kw : float) : M number :=
  vectorize (fun k => calculate_ph_full_pyfunc k c_ha_zero ka kw).

End Solver.

(** *** Stand-ins for the library routines in worked examples *)

(** [pow] on squares, correctly rounded. *)
Definition pow_square (x y : float) : float :=
  (if y =? 2 then x * x else nan)%float.

(** [numpy.log10] at the arguments of the worked examples. *)
Definition log10_table (x : float) : float :=
  (if x =? 1 then 0
   else if x =? 2 then 0.3010299956639812
   else if x =? 0 then neg_infinity
   else if x =? infinity then infinity
   else nan)%float.

(** The errors of IEEE arithmetic that numpy reports by default: an
    infinite result of finite operands, a nan that no operand carried, a
    division of a finite nonzero number by zero. *)
Definition ieee_errors (f : ufunc) (args : list float) : list fp_error :=
  let result (v : float) :=
    if existsb is_nan args then []
    else if is_nan v then [invalid_value]
    else if is_infinity v && forallb is_finite args then [overflow]
    else [] in
  match f, args with
  | Multiply, [a; b] => result (a * b)%float
  | Add, [a; b] => result (a + b)%float
  | Subtract, [a; b] => result (a - b)%float
  | TrueDivide, [a; b] =>
      if (b =? 0)%float && is_finite a && negb (a =? 0)%float then [divide_by_zero]
      else result (a / b)%float
  | Power, [a; _] => result (pow_square a 2)
  | Sqrt, [a] => result (PrimFloat.sqrt a)
  | Log10, [a] => if (a =? 0)%float then [divide_by_zero] else result (log10_table a)
  | _, _ => []
  end.

(** A table of roots for [numpy.roots]: the polynomial is looked up by its
    coefficients; a coefficient that is not finite raises LinAlgError. *)
Fixpoint same_floats (p q : list float) : bool :=
  match p, q with
  | [], [] => true
  | a :: p', b :: q' => (a =? b)%float && same_floats p' q'
  | _, _ => false
  end.

Fixpoint roots_table (t : list (list float * ndarray)) (p : list float)
  : exn + ndarray :=
  if negb (forallb is_finite p) then inl LinAlgError
  else
    match t with
    | [] => inr (float64 [])
    | (q, roots) :: t' => if same_floats p q then inr roots else roots_table t' p
    end.

(** No worked example has complex roots. *)
Definition no_complex_roots (k : scalar) (c_ha_zero ka kw : float)
    (zs : list (float * float)) : M number :=
  ret (Complex128 nan nan).

(** [HA]0 = 1, Ka = 2, Kw = 3: the acid cubic is (x - 2)(x + 1)(x + 3) and
    the base cubic (x - 3/2)(x + 3)(x + 1). *)
Definition roots_123 : list float -> exn + ndarray :=
  roots_table
    [ ([1; 2; -5; -6], float64 [-3.000000000000001; 2; -1]);
      ([1; 2.5; -3; -4.5], float64 [-3; 1.5; -1]) ]%float.

(** The same constants with a root finder that is off by a thousandth on
    the acid cubic and by a ten-thousandth on the base cubic. *)
Definition roots_off : list float -> exn + ndarray :=
  roots_table
    [ ([1; 2; -5; -6], float64 [-3; 2.001; -1]);
      ([1; 2.5; -3; -4.5], float64 [-3; 1.5001; -1]) ]%float.

(** [HA]0 = 5/3 with the negative constants Ka = -6 and Kw = -1: the acid
    cubic is (x - 1)(x - 2)(x - 3); the base cubic has positive
    coefficients throughout and its roots are near -1, -1/2 and -1/3. *)
Definition roots_neg : list float -> exn + ndarray :=
  roots_table
    [ ([1; -6; 11; -6], float64 [3; 2; 1]);
      ([1; 1.8333333333333335; 1; 0.16666666666666666],
       float64 [-1; -0.5; -0.3333333333333333]) ]%float.

(** [HA]0 = 9, Ka = 2 and a negative Kw = -5: the acid cubic is
    (x - 2)(x - 1)(x + 5). *)
Definition roots_kw_neg : list float -> exn + ndarray :=
  roots_table [ ([1; 2; -13; 10], float64 [-5; 2; 1]) ]%float.

(** [HA]0 = 0.1, Ka = 1e6, Kw = 1e-14: a root finder whose positive root is
    within 1e-13 of the exact one. *)
Definition roots_1e6 : list float -> exn + ndarray :=
  roots_table
    [ ([1; 1e6; -100000; -1e-8],
       float64 [-1000000.1; 0.09999999000005; -1e-13]) ]%float.

(** [HA]0 = -5/3, Ka = 6 and Kw = -1: the acid cubic is
    (x + 1)(x + 2)(x + 3). *)
Definition roots_negative : list float -> exn + ndarray :=
  roots_table [ ([1; 6; 11; 6], float64 [-3; -2; -1]) ]%float.

(** ** ESOL notebook: data download and descriptor filtering *)

(** [pathlib.Path(path).is_file()] *)
Definition is_file (path : string) : M bool :=
  fun w =>
    (w, inr match files w !! path with
            | Some (File _) => true
            | _ => false
            end).

(** [session.get(url, allow_redirects=True)]: the request for [url] goes
    out.  A server that redirects would make further requests follow; the
    answers modelled here are final. *)
Definition session_get (url : string) : M response :=
  fun w =>
    let w' := set_requests w (requests w ++ [url]) in
    match remote w url with
    | Some r => (w', inr r)
    | None => (w', inl ConnectionError)
    end.

(** Truth value of a [requests.Response]: its [ok] attribute, false for
    the 4xx and 5xx status codes. *)
Definition response_ok (r : response) : bool :=
  negb ((400 <=? status_code r) && (status_code r <? 600)).

(** [with open(path, "w") as output: output.write(text)]: creates or
    truncates the file.  The name space is flat and holds files and
    directories only: a missing parent directory, a device and a write that
    fails half way are not modelled. *)
Definition write_text (path text : string) : M unit :=
  fun w =>
    match files w !! path with
    | Some Directory => (w, inl IsADirectoryError)
    | _ => (set_files w (<[path := File text]> (files w)), inr tt)
    end.

Definition download_data_file (url output_file : string) : M (option string) :=
  do found <- is_file output_file ;;
  if found then
    run print ("File " +:+ output_file +:+ " exists - skipping download") ;;
    ret (Some output_file)
  else
    do response <- session_get url ;;
    if response_ok response then
      run write_text output_file (text response) ;;
      run print ("Downloaded file to: " +:+ output_file) ;;
      ret (Some output_file)
    else
      run print ("Could not download file: " +:+ pretty (status_code response)) ;;
      ret None.

Section Correlation.
Local Open Scope R_scope.

(** One entry of [DataFrame.corr()]: the Pearson correlation of two
    columns; [None] is NaN.  It is pandas code and stays a parameter. *)
Variable pearson : list R -> list R -> option R.

(** A data frame is the list of its columns, in column order. *)
Record Series : Type := { label : string; values : list R }.

(** [rdkit_descriptors.corr().abs()], entry in row [i] and column [j]. *)
Definition corr_abs (df : list Series) (i j : nat) : option R :=
  match df !! i, df !! j with
  | Some a, Some b => Rabs <$> pearson (values a) (values b)
  | _, _ => None
  end.

(** [np.triu(np.ones(corr.shape), k=1).astype(bool)] *)
Definition triu_k1 (i j : nat) : bool := (i <? j)%nat.

(** [corr.where(mask)]: NaN where the mask is false. *)
Definition upper (df : list Series) (i j : nat) : option R :=
  if triu_k1 i j then corr_abs df i j else None.

(** [v > t] on a float that may be NaN. *)
Definition gt (v : option R) (t : R) : bool :=
  match v with
  | Some r => if Rlt_dec t r then true else false
  | None => false
  end.

(** [upper[column]]: the column with that label, top to bottom.  Labels of
    a descriptor frame are distinct; the first match is taken. *)
Definition upper_column (df : list Series) (column : string) : list (option R) :=
  match list_find (fun s => label s = column) df with
  | Some (j, _) => (fun i => upper df i j) <$> seq 0 (length df)
  | None => []
  end.

Definition to_drop (df : list Series) : list string :=
  List.filter
    (fun column => existsb (fun v => gt v (975 / 1000)) (upper_column df column))
    (label <$> df).

(** [df.drop(labels=labels, axis=1)] *)
Definition DataFrame_drop (df : list Series) (labels : list string)
  : list Series :=
  List.filter (fun s => negb (bool_decide (label s ∈ labels))) df.

(** The filtering cell: the frame it leaves in [rdkit_descriptors]. *)
Definition remove_correlated (df : list Series) : M (list Series) :=
  let dropped := to_drop df in
  if (0 <? length dropped)%nat then
    run print ("Removed: [" +:+
               String.concat ", " ((fun l => "'" +:+ l +:+ "'") <$> dropped) +:+ "]") ;;
    ret (DataFrame_drop df dropped)
  else ret df.

(** The condition of the filtering step, in the words of the description:
    the column at position [j] has an absolute Pearson correlation above
    0.975 with some column before it. *)
Definition correlated_with_earlier (df : list Series) (j : nat) : Prop :=
  exists (i : nat) (a b : Series) (r : R),
    (i < j)%nat /\ df !! i = Some a /\ df !! j = Some b /\
    pearson (values a) (values b) = Some r /\ 975 / 1000 < Rabs r.

End Correlation.

(** ** Fingerprint notebook: the environment of a centre atom *)

Section Fingerprint.

(** [Chem.FindAtomEnvironmentOfRadiusN(molecule, radius, center)]: the
    indices of the bonds within [radius] of [center]; RDKit code, a
    parameter here. *)
Variable FindAtomEnvironmentOfRadiusN : Mol -> nat -> nat -> exn + list nat.

(** A colour is an RGB triple of fractions; the notebook's are floats. *)
Definition color : Type := Q * Q * Q.

Definition COLOR_TUPLES : list (Z * Z * Z) :=
  [ (230, 159, 0); (86, 180, 233); (0, 158, 115); (240, 228, 66);
    (0, 114, 178); (213, 94, 0); (204, 121, 167); (204, 204, 204) ]%Z.

Definition COLOR_FRAC : list color :=
  (fun c => match c with
            | (r, g, b) => (inject_Z r / 255, inject_Z g / 255, inject_Z b / 255)
            end)%Q
    <$> COLOR_TUPLES.

Inductive color_key : Type :=
  | Center_atom | Atom_in_a_ring | Aromatic_atom | Other_atoms | Bonds.

Definition COLOR_MAP (k : color_key) : color :=
  match k with
  | Center_atom => nth 1 COLOR_FRAC (0, 0, 0)%Q
  | Atom_in_a_ring => nth 6 COLOR_FRAC (0, 0, 0)%Q
  | Aromatic_atom => nth 3 COLOR_FRAC (0, 0, 0)%Q
  | Other_atoms => nth 7 COLOR_FRAC (0, 0, 0)%Q
  | Bonds => nth 7 COLOR_FRAC (0, 0, 0)%Q
  end.

Definition GetAtomWithIdx (m : Mol) (idx : nat) : M Atom :=
  match mol_atoms m !! idx with
  | Some a => ret a
  | None => raise RuntimeError
  end.

Definition GetBondWithIdx (m : Mol) (idx : nat) : M Bond :=
  match mol_bonds m !! idx with
  | Some b => ret b
  | None => raise RuntimeError
  end.

(** [for x in xs: body], threading the variables the body assigns. *)
Fixpoint for_each {A S : Type} (xs : list A) (body : S -> A -> M S) (s : S)
  : M S :=
  match xs with
  | [] => ret s
  | x :: xs' => do s' <- body s x ;; for_each xs' body s'
  end.

Definition get_atom_colors (molecule : Mol) (atoms : list nat)
    (centers : option (gset nat)) : M (gmap nat color) :=
  for_each atoms
    (fun colors atom =>
       if match centers with
          | Some cs => bool_decide (atom ∈ cs)
          | None => false
          end
       then ret (<[atom := COLOR_MAP Center_atom]> colors)
       else
         do a <- GetAtomWithIdx molecule atom ;;
         if GetIsAromatic a then ret (<[atom := COLOR_MAP Aromatic_atom]> colors)
         else
           do a <- GetAtomWithIdx molecule atom ;;
           if IsInRing a then ret (<[atom := COLOR_MAP Atom_in_a_ring]> colors)
           else ret (<[atom := COLOR_MAP Other_atoms]> colors))
    ∅.

Definition get_bond_colors (bonds : list nat) : gmap nat color :=
  foldl (fun colors bond => <[bond := COLOR_MAP Bonds]> colors) ∅ bonds.

(** [rdDepictor.Compute2DCoords(mol)]: the notebook imports [Chem],
    [AllChem], [rdCoordGen] and [Draw] from RDKit, never [rdDepictor], so
    the statement fails on that name, before the global [mol] (which is
    not the parameter [molecule]) is looked at. *)
Definition rdDepictor_Compute2DCoords_mol : M unit := raise NameError.

Definition get_environment (molecule : Mol) (center radius : nat)
  : M (list nat * list nat * gmap nat color * gmap nat color) :=
  run (if (GetNumConformers molecule =? 0)%nat
       then rdDepictor_Compute2DCoords_mol else ret tt) ;;
  do env <- lift (FindAtomEnvironmentOfRadiusN molecule radius center) ;;
  let atoms : gset nat := {[center]} in
  let bonds : gset nat := ∅ in
  do sets <- for_each env
    (fun '(atoms, bonds) bond =>
       do b <- GetBondWithIdx molecule bond ;;
       let atoms := atoms ∪ {[GetBeginAtomIdx b]} in
       do b <- GetBondWithIdx molecule bond ;;
       let atoms := atoms ∪ {[GetEndAtomIdx b]} in
       let bonds := bonds ∪ {[bond]} in
       ret (atoms, bonds))
    (atoms, bonds) ;;
  let atoms := elements (fst sets) in
  let bonds := elements (snd sets) in
  do atom_colors <- get_atom_colors molecule atoms (Some {[center]}) ;;
  let bond_colors := get_bond_colors bonds in
  ret (atoms, bonds, atom_colors, bond_colors).

End Fingerprint.

(** ** Worked examples for the notebooks *)

(** A working directory that already holds the data file. *)
Definition cached_world : World :=
  {| files := {[ "delaney.csv" := File "smiles,logS" ]};
     remote := fun _ => Some {| status_code := 200; text := "fresh" |};
     requests := []; stdout := []; warned := [] |}.

(** An empty working directory and a server that answers every url. *)
Definition fresh_world (status : nat) : World :=
  {| files := ∅;
     remote := fun _ => Some {| status_code := status; text := "fresh" |};
     requests := []; stdout := []; warned := [] |}.

(** Three descriptor columns; the second is twice the first. *)
Definition three_columns : list Series :=
  [ {| label := "MolWt"; values := [1; 2; 3]%R |};
    {| label := "HeavyAtomMolWt"; values := [2; 4; 6]%R |};
    {| label := "NumHDonors"; values := [1; 0; 1]%R |} ].

(** The correlations of those columns, tabulated: 1 between a column and
    its double, 0 otherwise. *)
Definition pearson_of_three (xs ys : list R) : option R :=
  match xs, ys with
  | x :: _, y :: _ => if Req_dec_T (2 * x) y then Some 1%R else Some 0%R
  | _, _ => None
  end.

(** The same chain before any coordinates were computed. *)
Definition chain3_flat : Mol :=
  {| mol_atoms := [ {| GetIsAromatic := false; IsInRing := false |};
                    {| GetIsAromatic := true; IsInRing := true |};
                    {| GetIsAromatic := false; IsInRing := true |} ];
     mol_bonds := [ {| GetBeginAtomIdx := 0; GetEndAtomIdx := 1 |};
                    {| GetBeginAtomIdx := 1; GetEndAtomIdx := 2 |} ];
     GetNumConformers := 0 |}.

(** A chain of three atoms 0 - 1 - 2 with one conformer. *)
Definition chain3 : Mol :=
  {| mol_atoms := [ {| GetIsAromatic := false; IsInRing := false |};
                    {| GetIsAromatic := true; IsInRing := true |};
                    {| GetIsAromatic := false; IsInRing := true |} ];
     mol_bonds := [ {| GetBeginAtomIdx := 0; GetEndAtomIdx := 1 |};
                    {| GetBeginAtomIdx := 1; GetEndAtomIdx := 2 |} ];
     GetNumConformers := 1 |}.

(** Every bond of the chain lies within radius 1 of atom 1. *)
Definition chain3_env (m : Mol) (radius center : nat) : exn + list nat :=
  inr [0; 1].

(** The colour [get_atom_colors] is to give an atom, read atom by atom:
    centre first, then aromatic, then ring, then the rest; [None] when the
    atom has to be looked up and its index is out of range. *)
Definition is_center (centers : option (gset nat)) (atom : nat) : bool :=
  match centers with
  | Some cs => bool_decide (atom ∈ cs)
  | None => false
  end.

Definition atom_class_color (molecule : Mol) (centers : option (gset nat))
    (atom : nat) : option color :=
  if is_center centers atom then Some (COLOR_MAP Center_atom)
  else
    match mol_atoms molecule !! atom with
    | Some a =>
        Some (if GetIsAromatic a then COLOR_MAP Aromatic_atom
              else if IsInRing a then COLOR_MAP Atom_in_a_ring
              else COLOR_MAP Other_atoms)
    | None => None
    end.

(** ** Fingerprint notebook: the grids of highlighted environments *)

Record MolDrawOptions : Type := {
  prepareMolsForDrawing : bool;
  fillHighlights : bool
}.

(** The arguments of one call of [Draw.MolsToGridImage]. *)
Record grid_call : Type := {
  mols : list Mol;
  molsPerRow : nat;
  subImgSize : nat * nat;
  legends : option (list string);
  highlightAtomLists : list (list nat);
  highlightBondLists : list (list nat);
  highlightAtomColors : list (gmap nat color);
  highlightBondColors : list (gmap nat color);
  drawOptions : MolDrawOptions
}.

(** The five lists the two grid functions fill side by side. *)
Record highlights : Type := {
  atoms_to_highlight : list (list nat);
  bonds_to_highlight : list (list nat);
  atoms_to_highlight_colors : list (gmap nat color);
  bonds_to_highlight_colors : list (gmap nat color);
  molecules_to_draw : list Mol
}.

Definition no_highlights : highlights :=
  {| atoms_to_highlight := []; bonds_to_highlight := [];
     atoms_to_highlight_colors := []; bonds_to_highlight_colors := [];
     molecules_to_draw := [] |}.

(** The five [append] calls at the end of a loop body. *)
Definition append_environment (h : highlights) (molecule : Mol)
    (env : list nat * list nat * gmap nat color * gmap nat color)
  : highlights :=
  match env with
  | (atoms, bonds, atom_colors, bond_colors) =>
      {| atoms_to_highlight := atoms_to_highlight h ++ [atoms];
         bonds_to_highlight := bonds_to_highlight h ++ [bonds];
         atoms_to_highlight_colors := atoms_to_highlight_colors h ++ [atom_colors];
         bonds_to_highlight_colors := bonds_to_highlight_colors h ++ [bond_colors];
         molecules_to_draw := molecules_to_draw h ++ [molecule] |}
  end.

(** [info[bit]] on a missing bit raises KeyError, which the other cells
    never raise: it is added to [exn] here. *)
Inductive grid_exn : Type :=
  | KeyError
  | Raised (e : exn).

Section Grid.

Variable FindAtomEnvironmentOfRadiusN : Mol -> nat -> nat -> exn + list nat.

(** What [Draw.MolsToGridImage] returns, and the function itself: RDKit
    code, parameters here. *)
Variable Image : Type.
Variable MolsToGridImage : grid_call -> exn + Image.

(** [for i, example in enumerate(info[bit])] with its [break]. *)
Fixpoint draw_loop (molecule : Mol) (max_examples : option Z) (i : nat)
    (examples : list (nat * nat)) (h : highlights) : M highlights :=
  match examples with
  | [] => ret h
  | example :: rest =>
      if match max_examples with
         | Some m => (m <? Z.of_nat i + 1)%Z
         | None => false
         end
      then ret h
      else
        match example with
        | (center, radius) =>
            do env <- get_environment FindAtomEnvironmentOfRadiusN
                        molecule center radius ;;
            draw_loop molecule max_examples (S i) rest
              (append_environment h molecule env)
        end
  end.

Definition draw_molecule_and_bit_info_grid (molecule : Mol)
    (info : gmap nat (list (nat * nat))) (bit : nat)
    (max_examples : option Z) (mols_per_row : nat)
  : World -> World * (grid_exn + Image) :=
  fun w =>
    match info !! bit with
    | None => (w, inl KeyError)
    | Some examples =>
        match draw_loop molecule max_examples 0 examples no_highlights w with
        | (w', inl e) => (w', inl (Raised e))
        | (w', inr h) =>
            let options := {| prepareMolsForDrawing := true;
                              fillHighlights := true |} in
            match MolsToGridImage
                    {| mols := molecules_to_draw h;
                       molsPerRow :=
                         Nat.min mols_per_row (length (molecules_to_draw h));
                       subImgSize := (200, 200);
                       legends := None;
                       highlightAtomLists := atoms_to_highlight h;
                       highlightBondLists := bonds_to_highlight h;
                       highlightAtomColors := atoms_to_highlight_colors h;
                       highlightBondColors := bonds_to_highlight_colors h;
                       drawOptions := options |}
            with
            | inl e => (w', inl (Raised e))
            | inr image => (w', inr image)
            end
        end
    end.

(** [sorted(info.keys())] *)
Definition sorted_keys (info : gmap nat (list (nat * nat))) : list nat :=
  merge_sort Nat.le (elements (dom info)).

(** [info[key]] for a key of [info], and [examples[0]]. *)
Definition first_example (info : gmap nat (list (nat * nat))) (key : nat)
  : M (nat * nat) :=
  match info !! key with
  | Some (example :: _) => ret example
  | _ => raise IndexError
  end.

Definition show_all_on_bits (molecule : Mol)
    (info : gmap nat (list (nat * nat))) : M Image :=
  do acc <- for_each (sorted_keys info)
    (fun '(h, legends) key =>
       do example <- first_example info key ;;
       match example with
       | (center, radius) =>
           let legends := legends ++ ["Bit " +:+ pretty key] in
           do env <- get_environment FindAtomEnvironmentOfRadiusN
                       molecule center radius ;;
           ret (append_environment h molecule env, legends)
       end)
    (no_highlights, []) ;;
  match acc with
  | (h, legend_list) =>
      let options := {| prepareMolsForDrawing := true;
                        fillHighlights := true |} in
      lift (MolsToGridImage
              {| mols := molecules_to_draw h;
                 molsPerRow := Nat.min 5 (length (molecules_to_draw h));
                 subImgSize := (150, 150);
                 legends := Some legend_list;
                 highlightAtomLists := atoms_to_highlight h;
                 highlightBondLists := bonds_to_highlight h;
                 highlightAtomColors := atoms_to_highlight_colors h;
                 highlightBondColors := bonds_to_highlight_colors h;
                 drawOptions := options |})
  end.

End Grid.

(** ** Molecular-orbital notebook: the frontier orbitals *)

(** A float that may be infinite: the initial values of the search. *)
Inductive efloat : Type :=
  | NegInf
  | Finite (r : R)
  | PosInf.

(** [energy > e] and [energy < e] for a finite [energy]. *)
Definition above (energy : R) (e : efloat) : bool :=
  match e with
  | NegInf => true
  | Finite r => if Rlt_dec r energy then true else false
  | PosInf => false
  end.

Definition below (energy : R) (e : efloat) : bool :=
  match e with
  | NegInf => false
  | Finite r => if Rlt_dec energy r then true else false
  | PosInf => true
  end.

(** The two arrays of the SCF result that the search reads. *)
Record SCF : Type := { mo_energy : list R; mo_occ : list R }.

(** The body of the loop of [find_homo_lumo], from index [i] on. *)
Fixpoint homo_lumo_loop (i : nat) (orbitals : list (R * R))
    (homo : efloat) (homo_idx : option nat)
    (lumo : efloat) (lumo_idx : option nat)
  : efloat * option nat * efloat * option nat :=
  match orbitals with
  | [] => (homo, homo_idx, lumo, lumo_idx)
  | (energy, occ) :: rest =>
      let '(homo, homo_idx) :=
        if (if Rlt_dec 0 occ then true else false) && above energy homo
        then (Finite energy, Some i) else (homo, homo_idx) in
      let '(lumo, lumo_idx) :=
        if (if Req_dec_T occ 0 then true else false) && below energy lumo
        then (Finite energy, Some i) else (lumo, lumo_idx) in
      homo_lumo_loop (S i) rest homo homo_idx lumo lumo_idx
  end.

Definition find_homo_lumo (mf : SCF)
  : efloat * option nat * efloat * option nat :=
  homo_lumo_loop 0 (zip (mo_energy mf) (mo_occ mf)) NegInf None PosInf None.

(** What the search knows about the occupied orbitals seen so far. *)
Definition homo_found (seen : list (R * R)) (homo : efloat)
    (homo_idx : option nat) : Prop :=
  match homo_idx with
  | Some i =>
      exists energy occ,
        seen !! i = Some (energy, occ) /\ (0 < occ)%R /\ homo = Finite energy /\
        forall j e o, seen !! j = Some (e, o) -> (0 < o)%R ->
                      (e <= energy)%R /\ (j < i -> (e < energy)%R)
  | None =>
      homo = NegInf /\ forall j e o, seen !! j = Some (e, o) -> ~ (0 < o)%R
  end.

(** The same for the empty orbitals. *)
Definition lumo_found (seen : list (R * R)) (lumo : efloat)
    (lumo_idx : option nat) : Prop :=
  match lumo_idx with
  | Some i =>
      exists energy occ,
        seen !! i = Some (energy, occ) /\ occ = 0%R /\ lumo = Finite energy /\
        forall j e o, seen !! j = Some (e, o) -> o = 0%R ->
                      (energy <= e)%R /\ (j < i -> (energy < e)%R)
  | None =>
      lumo = PosInf /\ forall j e o, seen !! j = Some (e, o) -> o <> 0%R
  end.

(** An RDKit-given example is drawn with the result [res] of
    [get_environment] on its centre and radius (from some world). *)
Definition environment_of
    (FindAtomEnvironmentOfRadiusN : Mol -> nat -> nat -> exn + list nat)
    (molecule : Mol) (example : nat * nat)
    (res : list nat * list nat * gmap nat color * gmap nat color) : Prop :=
  exists w w' : World,
    get_environment FindAtomEnvironmentOfRadiusN molecule
      (fst example) (snd example) w = (w', inr res).

(** The lists after appending a run of environments, one by one. *)
Definition append_environments (h : highlights) (molecule : Mol)
    (results : list (list nat * list nat * gmap nat color * gmap nat color))
  : highlights :=
  foldl (fun h res => append_environment h molecule res) h results.

(** A stand-in for [Draw.MolsToGridImage] in worked examples: the "image"
    is the number of cells. *)
Definition count_cells (call : grid_call) : exn + nat :=
  inr (length (mols call)).

(** Fingerprint information with two on bits. *)
Definition two_bits : gmap nat (list (nat * nat)) :=
  {[ 1043 := [(1, 1); (0, 1)]; 7 := [(2, 1)] ]}.

(** Orbital energies and occupations of a small closed-shell molecule. *)
Definition four_orbitals : SCF :=
  {| mo_energy := [-1; -1 / 2; 3 / 10; 4 / 5]%R; mo_occ := [2; 2; 0; 0]%R |}.

(** * Properties *)

(** ** Running the monad *)

(** Tactics that settle comparisons of given numbers. *)
Ltac decide_Rlt :=
  repeat match goal with
  | |- context [Rlt_dec ?a ?b] =>
      destruct (Rlt_dec a b);
      [ first [ exfalso; lra | idtac ] | first [ exfalso; lra | idtac ] ]
  end.

Ltac decide_Req :=
  repeat match goal with
  | |- context [Req_dec_T ?a ?b] =>
      destruct (Req_dec_T a b);
      [ first [ exfalso; lra | idtac ] | first [ exfalso; lra | idtac ] ]
  end.

Lemma set_warned_id w : set_warned w (warned w ++ []) = w.
Proof. destruct w; unfold set_warned; simpl; rewrite app_nil_r; reflexivity. Qed.

Lemma set_warned_twice w ws1 ws2 :
  set_warned (set_warned w (warned w ++ ws1))
             (warned (set_warned w (warned w ++ ws1)) ++ ws2)
  = set_warned w (warned w ++ (ws1 ++ ws2)).
Proof. unfold set_warned; simpl; rewrite app_assoc; reflexivity. Qed.

Lemma user_warnings_app ws1 ws2 :
  user_warnings (ws1 ++ ws2) = user_warnings ws1 ++ user_warnings ws2.
Proof. unfold user_warnings. induction ws1 as [|x ws1 IH]; simpl; [reflexivity|].
  destruct x; simpl; rewrite IH; reflexivity. Qed.

Lemma user_warnings_runtime (f : ufunc) (es : list fp_error) :
  user_warnings ((fun e => RuntimeWarning e f) <$> es) = [].
Proof. induction es as [|e es IH]; simpl; [reflexivity | exact IH]. Qed.

Lemma yields_functional {A} (m : M A) ws ws' r r' :
  yields m ws r -> yields m ws' r' -> ws = ws' /\ r = r'.
Proof.
  intros H H'. specialize (H empty_world). rewrite (H' empty_world) in H.
  inversion H; auto.
Qed.

Lemma ends_functional {A} (m : M A) u u' r r' :
  ends m u r -> ends m u' r' -> u = u' /\ r = r'.
Proof.
  intros (ws & H & <-) (ws' & H' & <-).
  destruct (yields_functional m ws ws' r r' H H') as [-> ->]; auto.
Qed.

Lemma ends_snd {A} (m : M A) u r w : ends m u r -> snd (m w) = r.
Proof. intros (ws & H & _). rewrite H. reflexivity. Qed.

Lemma ends_ret {A} (a : A) : ends (ret a) [] (inr a).
Proof. exists []; split; [|reflexivity]. intros w; unfold ret; rewrite set_warned_id; reflexivity. Qed.

Lemma ends_raise {A} (e : exn) : ends (@raise A e) [] (inl e).
Proof. exists []; split; [|reflexivity]. intros w; unfold raise; rewrite set_warned_id; reflexivity. Qed.

Lemma ends_lift {A} (r : exn + A) : ends (lift r) [] r.
Proof. exists []; split; [|reflexivity]. intros w; unfold lift; rewrite set_warned_id; reflexivity. Qed.

Lemma ends_bind {A B} (m : M A) (k : A -> M B) u1 a u2 r :
  ends m u1 (inr a) -> ends (k a) u2 r -> ends (bind m k) (u1 ++ u2) r.
Proof.
  intros (ws1 & H1 & <-) (ws2 & H2 & <-).
  exists (ws1 ++ ws2); split; [|apply user_warnings_app].
  intros w; unfold bind; rewrite H1, H2, set_warned_twice; reflexivity.
Qed.

Lemma ends_bind_raise {A B} (m : M A) (k : A -> M B) u e :
  ends m u (inl e) -> ends (bind m k) u (inl e).
Proof.
  intros (ws & H & <-). exists ws; split; [|reflexivity].
  intros w; unfold bind; rewrite H; reflexivity.
Qed.

Lemma ends_warn (msg : warning) :
  user_warnings [msg] = [msg] -> ends (warn msg) [msg] (inr tt).
Proof. intros H. exists [msg]; split; [|exact H]. intros w; reflexivity. Qed.

Section SolverFacts.
Local Open Scope float_scope.

Variable pow : float -> float -> float.
Variable np_log10 : float -> float.
Variable np_roots : list float -> exn + ndarray.
Variable np_errstate : ufunc -> list float -> list fp_error.
Variable complex_roots_h complex_roots_oh
  : scalar -> float -> float -> float -> list (float * float) -> M number.

Lemma ends_np {A} (f : ufunc) (args : list float) (v : A) :
  ends (np np_errstate f args v) [] (inr v).
Proof.
  eexists; split; [intros w; reflexivity | apply user_warnings_runtime].
Qed.

Lemma ends_arith k f op a b : ends (arith np_errstate k f op a b) [] (inr (op a b)).
Proof. destruct k; [apply ends_np | apply ends_ret]. Qed.

Lemma ends_less k a b : ends (less np_errstate k a b) [] (inr (a <? b)).
Proof. destruct k; [apply ends_np | apply ends_ret]. Qed.

Lemma ends_neg_log10 x :
  ends (neg_log10 np_log10 np_errstate x) [] (inr (- np_log10 x)).
Proof.
  unfold neg_log10. eapply (ends_bind _ _ [] _ []); [apply ends_np | apply ends_ret].
Qed.

End SolverFacts.

(** ** Signs of doubles *)

Section FloatFacts.
Local Open Scope float_scope.

Lemma Prim2SF_zero : Prim2SF 0 = S754_zero false.
Proof. reflexivity. Qed.

Lemma is_nan_spec (x : float) : is_nan x = true <-> Prim2SF x = S754_nan.
Proof.
  unfold is_nan. rewrite FloatAxioms.eqb_spec. unfold SFeqb.
  destruct (Prim2SF x) as [s|s| |s m e]; simpl.
  - split; discriminate.
  - destruct s; split; discriminate.
  - split; reflexivity.
  - destruct s; rewrite Z.compare_refl, Pos.compare_cont_refl; simpl; split; discriminate.
Qed.

Lemma is_nan_false (x : float) : is_nan x = false <-> Prim2SF x <> S754_nan.
Proof.
  rewrite <- is_nan_spec. destruct (is_nan x); split; congruence.
Qed.

(** [x < 0] fails exactly for nan and for the doubles that carry no minus
    sign, zeros included. *)
Lemma ltb_zero_false (x : float) :
  (x <? 0) = false <-> sign_or_nan false (Prim2SF x).
Proof.
  rewrite FloatAxioms.ltb_spec, Prim2SF_zero. unfold SFltb.
  destruct (Prim2SF x) as [s|s| |s m e]; simpl; try destruct s; simpl;
    split; try discriminate; try reflexivity; auto.
Qed.

Lemma leb_zero_true (x : float) :
  (0 <=? x) = true <-> sign_or_nan false (Prim2SF x) /\ Prim2SF x <> S754_nan.
Proof.
  rewrite FloatAxioms.leb_spec, Prim2SF_zero. unfold SFleb.
  destruct (Prim2SF x) as [s|s| |s m e]; simpl; try destruct s; simpl;
    split; try discriminate; try (intros [? ?]; congruence); try (split; [reflexivity|discriminate]); auto.
Qed.

Lemma sign_or_nan_opp s (x : spec_float) :
  sign_or_nan s x -> sign_or_nan (negb s) (SFopp x).
Proof. destruct x; simpl; auto; intros ->; reflexivity. Qed.

Lemma binary_round_aux_sign s m e l :
  sign_or_nan s (binary_round_aux prec emax s m e l).
Proof.
  unfold binary_round_aux.
  destruct (shr_fexp prec emax m e l) as [mrs' e'].
  destruct (shr_fexp prec emax _ e' loc_Exact) as [mrs'' e''].
  destruct (shr_m mrs''); simpl; auto.
  destruct (Z.leb e'' (emax - prec)); simpl; reflexivity.
Qed.

Lemma binary_round_sign s m e : sign_or_nan s (binary_round prec emax s m e).
Proof.
  unfold binary_round. destruct (shl_align _ _ _) as [mz ez].
  apply binary_round_aux_sign.
Qed.

Lemma SFmul_sign sx sy (x y : spec_float) :
  sign_or_nan sx x -> sign_or_nan sy y -> sign_or_nan (xorb sx sy) (SF64mul x y).
Proof.
  unfold SF64mul, SFmul.
  destruct x as [s1|s1| |s1 m1 e1], y as [s2|s2| |s2 m2 e2]; simpl; auto;
    try (intros -> ->; reflexivity); try (intros _ ->; reflexivity);
    try (intros -> _; reflexivity).
  intros -> ->. apply binary_round_aux_sign.
Qed.

(** Dividing by a double above zero keeps the absence of a minus sign. *)
Lemma SFdiv_sign (x y : spec_float) :
  sign_or_nan false x -> SFltb (S754_zero false) y = true ->
  sign_or_nan false (SF64div x y).
Proof.
  unfold SF64div, SFdiv, SFltb.
  destruct x as [s1|s1| |s1 m1 e1], y as [s2|s2| |s2 m2 e2]; simpl; auto;
    try discriminate; try (destruct s2; simpl; try discriminate; auto; fail).
  - destruct s2; simpl; try discriminate. intros -> _; reflexivity.
  - destruct s2; simpl; try discriminate. intros H _; subst s1.
    destruct (SFdiv_core_binary prec emax (Z.pos m1) e1 (Z.pos m2) e2) as [[mz ez] lz].
    apply binary_round_aux_sign.
Qed.

(** A double without minus sign minus one without plus sign has no minus
    sign. *)
Lemma SFsub_sign (x y : spec_float) :
  sign_or_nan false x -> sign_or_nan true y -> sign_or_nan false (SF64sub x y).
Proof.
  unfold SF64sub, SFsub.
  destruct x as [s1|s1| |s1 m1 e1], y as [s2|s2| |s2 m2 e2]; simpl; auto;
    try (intros -> ->; reflexivity); try (intros _ ->; reflexivity);
    try (intros -> _; reflexivity);
    try (destruct s1, s2; simpl; auto; fail).
  intros -> ->. unfold cond_Zopp. simpl Z.sub.
  unfold binary_normalize. apply binary_round_sign.
Qed.

Lemma SFsub_nan_l (y : spec_float) : SF64sub S754_nan y = S754_nan.
Proof. reflexivity. Qed.

Lemma SFsub_nan_r (x : spec_float) : SF64sub x S754_nan = S754_nan.
Proof. destruct x; reflexivity. Qed.

Lemma SFmul_nan_l (y : spec_float) : SF64mul S754_nan y = S754_nan.
Proof. reflexivity. Qed.

Lemma SFmul_nan_r (x : spec_float) : SF64mul x S754_nan = S754_nan.
Proof. destruct x; reflexivity. Qed.

Lemma SFdiv_nan_l (y : spec_float) : SF64div S754_nan y = S754_nan.
Proof. reflexivity. Qed.

Lemma SFdiv_nan_r (x : spec_float) : SF64div x S754_nan = S754_nan.
Proof. destruct x; reflexivity. Qed.

End FloatFacts.

Section FloatFacts2.
Local Open Scope float_scope.

Lemma eqb_nan_l (a b : float) : is_nan a = true -> (a =? b) = false.
Proof.
  intros H. apply is_nan_spec in H.
  rewrite FloatAxioms.eqb_spec, H. reflexivity.
Qed.

Lemma np_isclose_not_nan (a b atol : float) :
  np_isclose a b atol = true -> is_nan a = false.
Proof.
  unfold np_isclose, is_finite. destruct (is_nan a) eqn:Hnan; [|reflexivity].
  simpl. rewrite (eqb_nan_l a b Hnan). discriminate.
Qed.

Lemma div_not_nan (a b : float) :
  is_nan (a / b) = false -> is_nan a = false /\ is_nan b = false.
Proof.
  rewrite !is_nan_false, FloatAxioms.div_spec.
  intros H; split; intros E; apply H; rewrite E.
  - apply SFdiv_nan_l.
  - apply SFdiv_nan_r.
Qed.

Lemma mul_not_nan (a b : float) :
  is_nan (a * b) = false -> is_nan a = false /\ is_nan b = false.
Proof.
  rewrite !is_nan_false, FloatAxioms.mul_spec.
  intros H; split; intros E; apply H; rewrite E.
  - apply SFmul_nan_l.
  - apply SFmul_nan_r.
Qed.

Lemma sub_not_nan (a b : float) :
  is_nan (a - b) = false -> is_nan a = false /\ is_nan b = false.
Proof.
  rewrite !is_nan_false, FloatAxioms.sub_spec.
  intros H; split; intros E; apply H; rewrite E.
  - apply SFsub_nan_l.
  - apply SFsub_nan_r.
Qed.

(** A double that is neither negative nor nan is at least zero. *)
Lemma not_negative_leb (x : float) :
  (x <? 0) = false -> is_nan x = false -> (0 <=? x) = true.
Proof.
  intros Hlt Hnan. apply leb_zero_true. split.
  - apply ltb_zero_false, Hlt.
  - apply is_nan_false, Hnan.
Qed.

Lemma div_by_positive (a b : float) :
  (0 <=? a) = true -> (0 <? b) = true -> sign_or_nan false (Prim2SF (a / b)).
Proof.
  intros Ha Hb. rewrite FloatAxioms.div_spec. apply SFdiv_sign.
  - apply leb_zero_true in Ha. apply Ha.
  - rewrite FloatAxioms.ltb_spec, Prim2SF_zero in Hb. exact Hb.
Qed.

End FloatFacts2.

(** ** The cubics over the real numbers *)

Section CubicFacts.
Local Open Scope R_scope.

Lemma polyval_poly_h c ka kw x :
  polyval (poly_h c ka kw) x = x ^ 3 + ka * x ^ 2 - (kw + ka * c) * x - ka * kw.
Proof. unfold polyval, poly_h; simpl; ring. Qed.

Lemma polyval_poly_oh c kb kw x :
  polyval (poly_oh c kb kw) x = x ^ 3 + (c + kb) * x ^ 2 - kw * x - kb * kw.
Proof. unfold polyval, poly_oh; simpl; ring. Qed.

Lemma fold_poly_continuity (p : list R) (f : R -> R) :
  continuity f ->
  continuity (fun x => fold_left (fun acc a => acc * x + a) p (f x)).
Proof.
  revert f; induction p as [|a p IH]; intros f Hf; simpl; [exact Hf|].
  apply (IH (fun x => f x * x + a)).
  apply continuity_plus.
  - apply continuity_mult; [exact Hf|].
    apply derivable_continuous, derivable_id.
  - apply continuity_const; intros u v; reflexivity.
Qed.

Lemma polyval_continuity (p : list R) : continuity (polyval p).
Proof.
  apply (fold_poly_continuity p (fun _ => 0)).
  apply continuity_const; intros u v; reflexivity.
Qed.

(** A polynomial that is negative at 0 and positive at [hi] vanishes in
    between. *)
Lemma positive_root_between (p : list R) (hi : R) :
  0 < hi -> polyval p 0 < 0 -> 0 < polyval p hi ->
  exists x, 0 < x /\ polyval p x = 0.
Proof.
  intros Hhi H0 H1.
  destruct (IVT (polyval p) 0 hi (polyval_continuity p) Hhi H0 H1)
    as [z [[Hz0 Hz1] Hz]].
  exists z; split; [|exact Hz].
  destruct Hz0 as [Hlt|Heq]; [exact Hlt|].
  subst z; lra.
Qed.

Lemma acid_cubic_has_positive_root c ka kw :
  0 < c -> 0 < ka -> 0 < kw ->
  exists x, 0 < x /\ polyval (poly_h c ka kw) x = 0.
Proof.
  intros Hc Hka Hkw.
  apply (positive_root_between _ (1 + c + kw)); [lra| |].
  - rewrite polyval_poly_h; nra.
  - rewrite polyval_poly_h.
    set (X := 1 + c + kw).
    assert (HX : 1 < X) by (unfold X; lra).
    assert (H1 : 0 < X * X - kw) by (unfold X; nra).
    assert (H2 : 0 < X * X - c * X - kw) by (unfold X; nra).
    assert (H3 : 0 < X * (X * X - kw)) by (apply Rmult_lt_0_compat; lra).
    assert (H4 : 0 < ka * (X * X - c * X - kw)) by (apply Rmult_lt_0_compat; lra).
    nra.
Qed.

Lemma acid_cubic_positive_root_unique c ka kw x y :
  0 < c -> 0 < ka -> 0 < kw ->
  0 < x -> 0 < y ->
  polyval (poly_h c ka kw) x = 0 -> polyval (poly_h c ka kw) y = 0 ->
  x = y.
Proof.
  assert (Hlt : forall a b, 0 < c -> 0 < ka -> 0 < kw -> 0 < a -> a < b ->
            polyval (poly_h c ka kw) a = 0 -> polyval (poly_h c ka kw) b = 0 ->
            False).
  { intros a b Hc Hka Hkw Ha Hab Pa Pb.
    rewrite polyval_poly_h in Pa, Pb.
    assert (Q : a * a + ka * a - (kw + ka * c) > 0).
    { assert (E : a * (a * a + ka * a - (kw + ka * c)) = ka * kw) by nra.
      assert (0 < ka * kw) by (apply Rmult_lt_0_compat; lra).
      nra. }
    assert (D : (b - a) * (b * b + a * b + a * a + ka * (a + b) - (kw + ka * c)) = 0)
      by nra.
    apply Rmult_integral in D; destruct D as [D|D]; [lra|].
    nra. }
  intros Hc Hka Hkw Hx Hy Px Py.
  destruct (Rtotal_order x y) as [H|[H|H]]; [|exact H|].
  - exfalso; eapply (Hlt x y); eauto.
  - exfalso; eapply (Hlt y x); eauto.
Qed.

Lemma base_cubic_has_positive_root c kb kw :
  0 < kb -> 0 < kw ->
  exists x, 0 < x /\ polyval (poly_oh c kb kw) x = 0.
Proof.
  intros Hkb Hkw.
  set (X := 1 + kw + Rabs c).
  assert (Habs : 0 <= Rabs c) by apply Rabs_pos.
  assert (Hc : - Rabs c <= c).
  { unfold Rabs; destruct (Rcase_abs c); lra. }
  apply (positive_root_between _ X); [unfold X; lra| |].
  - rewrite polyval_poly_oh; nra.
  - rewrite polyval_poly_oh.
    assert (HX : 1 < X) by (unfold X; lra).
    assert (H1 : 1 + kw <= X + c) by (unfold X; lra).
    assert (H2 : X < X * X) by nra.
    assert (H0 : 1 + kw <= X) by (unfold X; lra).
    assert (H3 : kw * X < X * X * (X + c)) by nra.
    assert (H5 : 0 < kb * (X * X - kw)) by (apply Rmult_lt_0_compat; lra).
    nra.
Qed.

(** The positive root of the acid cubic gives positive concentrations and
    satisfies the dissociation equilibrium exactly. *)
Lemma acid_root_physical c ka kw x :
  0 < c -> 0 < ka -> 0 < kw -> 0 < x ->
  polyval (poly_h c ka kw) x = 0 ->
  0 < kw / x /\ 0 < x - kw / x /\ 0 < c - (x - kw / x) /\
  x * (x - kw / x) / (c - (x - kw / x)) = ka.
Proof.
  intros Hc Hka Hkw Hx Px. rewrite polyval_poly_h in Px.
  assert (Hkwx : 0 < kw / x) by (apply Rdiv_lt_0_compat; lra).
  assert (Hsq : kw < x * x).
  { destruct (Rlt_dec kw (x * x)) as [H|H]; [exact H|exfalso].
    assert (H1 : (x + ka) * (x * x - kw) <= 0) by nra.
    assert (H2 : 0 < ka * c * x) by (repeat apply Rmult_lt_0_compat; lra).
    nra. }
  assert (EA : x - kw / x = (x * x - kw) / x) by (field; lra).
  assert (HA : 0 < x - kw / x).
  { rewrite EA; apply Rdiv_lt_0_compat; lra. }
  assert (Hnum : 0 < c * x - x * x + kw).
  { assert (E : ka * (c * x - x * x + kw) = x * (x * x - kw)) by nra.
    assert (0 < x * (x * x - kw)) by (apply Rmult_lt_0_compat; lra).
    nra. }
  assert (EHA : c - (x - kw / x) = (c * x - x * x + kw) / x) by (field; lra).
  assert (HHA : 0 < c - (x - kw / x)).
  { rewrite EHA; apply Rdiv_lt_0_compat; lra. }
  repeat split; auto.
  rewrite EHA, EA.
  assert (E : x * ((x * x - kw) / x) = x * x - kw) by (field; lra).
  rewrite E.
  apply (Rmult_eq_reg_r ((c * x - x * x + kw) / x)); [|rewrite <- EHA; lra].
  unfold Rdiv at 1. rewrite Rmult_assoc, Rinv_l by (rewrite <- EHA; lra).
  rewrite Rmult_1_r.
  assert (E2 : ka * ((c * x - x * x + kw) / x) = ka * (c * x - x * x + kw) / x)
    by (field; lra).
  rewrite E2.
  apply (Rmult_eq_reg_r x); [|lra].
  unfold Rdiv. rewrite Rmult_assoc, Rinv_l, Rmult_1_r by lra.
  nra.
Qed.

Lemma quadratic_root (c_ha_zero ka : R) :
  0 <= ka ^ 2 + 4 * ka * c_ha_zero ->
  ((- ka + sqrt (ka ^ 2 + 4 * ka * c_ha_zero)) / 2) ^ 2
  + ka * ((- ka + sqrt (ka ^ 2 + 4 * ka * c_ha_zero)) / 2)
  - ka * c_ha_zero = 0.
Proof.
  intros Hd.
  pose proof (sqrt_sqrt _ Hd) as Hs.
  set (s := sqrt (ka ^ 2 + 4 * ka * c_ha_zero)) in *.
  replace (((- ka + s) / 2) ^ 2 + ka * ((- ka + s) / 2) - ka * c_ha_zero)
    with ((s * s - (ka ^ 2 + 4 * ka * c_ha_zero)) / 4) by field.
  rewrite Hs; field.
Qed.

End CubicFacts.

(** ** The pH solver *)

Ltac ends_step :=
  first
    [ apply ends_ret | apply ends_raise | apply ends_lift | apply ends_np
    | apply ends_arith | apply ends_less | apply ends_neg_log10
    | eapply (ends_bind _ _ [] _ _); [ ends_step | cbv beta ] ].

Section SolverRuns.
Local Open Scope float_scope.

Variable pow : float -> float -> float.
Variable np_log10 : float -> float.
Variable np_roots : list float -> exn + ndarray.
Variable np_errstate : ufunc -> list float -> list fp_error.
Variable complex_roots_h complex_roots_oh
  : scalar -> float -> float -> float -> list (float * float) -> M number.

Lemma ends_vectorize_raise {A} (pyfunc : scalar -> M A) u e :
  ends (pyfunc NumpyFloat64) u (inl e) -> ends (vectorize pyfunc) u (inl e).
Proof. intros H. unfold vectorize. apply ends_bind_raise, H. Qed.

Lemma ends_vectorize {A} (pyfunc : scalar -> M A) u1 a u2 r :
  ends (pyfunc NumpyFloat64) u1 (inr a) -> ends (pyfunc PythonFloat) u2 r ->
  ends (vectorize pyfunc) (u1 ++ u2) r.
Proof. intros H1 H2. unfold vectorize. eapply ends_bind; [exact H1 | exact H2]. Qed.

(** *** [calculate_ph_approximate] *)

Lemma calculate_ph_approximate_tail (c_ha_zero ka d : float) :
  ends
    (if d <? 0 then raise ValueError
     else
       do r <- np np_errstate Sqrt [d] (PrimFloat.sqrt d) ;;
       do s <- np np_errstate Add [- ka; r] (- ka + r) ;;
       do x <- np np_errstate TrueDivide [s; 2 * 1] (s / (2 * 1)) ;;
       neg_log10 np_log10 np_errstate x) []
    (if d <? 0 then inl ValueError
     else inr (- np_log10 ((- ka + PrimFloat.sqrt d) / (2 * 1)))).
Proof. destruct (d <? 0); repeat ends_step. Qed.

Lemma calculate_ph_approximate_numpy (c_ha_zero ka : float) :
  let d := square pow ka - 4 * 1 * (- ka * c_ha_zero) in
  ends (calculate_ph_approximate_pyfunc pow np_log10 np_errstate
          NumpyFloat64 c_ha_zero ka) []
    (if d <? 0 then inl ValueError
     else inr (- np_log10 ((- ka + PrimFloat.sqrt d) / (2 * 1)))).
Proof.
  intros d. unfold calculate_ph_approximate_pyfunc. cbn [nth pow2].
  do 5 ends_step.
  apply (calculate_ph_approximate_tail c_ha_zero ka d).
Qed.

Lemma calculate_ph_approximate_python (c_ha_zero ka : float) :
  let d := square pow ka - 4 * 1 * (- ka * c_ha_zero) in
  ends (calculate_ph_approximate_pyfunc pow np_log10 np_errstate
          PythonFloat c_ha_zero ka) []
    (if square_overflows pow ka then inl OverflowError
     else if d <? 0 then inl ValueError
     else inr (- np_log10 ((- ka + PrimFloat.sqrt d) / (2 * 1)))).
Proof.
  intros d. unfold calculate_ph_approximate_pyfunc. cbn [nth pow2].
  ends_step.
  destruct (square_overflows pow ka).
  - apply ends_bind_raise, ends_raise.
  - do 4 ends_step.
    apply (calculate_ph_approximate_tail c_ha_zero ka d).
Qed.

Lemma calculate_ph_approximate_run (c_ha_zero ka : float) :
  let d := square pow ka - 4 * 1 * (- ka * c_ha_zero) in
  ends (calculate_ph_approximate pow np_log10 np_errstate c_ha_zero ka) []
    (if d <? 0 then inl ValueError
     else if square_overflows pow ka then inl OverflowError
     else inr (- np_log10 ((- ka + PrimFloat.sqrt d) / (2 * 1)))).
Proof.
  intros d. unfold calculate_ph_approximate.
  pose proof (calculate_ph_approximate_numpy c_ha_zero ka) as Hn.
  pose proof (calculate_ph_approximate_python c_ha_zero ka) as Hp.
  cbv zeta in Hn, Hp. fold d in Hn, Hp.
  destruct (d <? 0).
  - apply ends_vectorize_raise, Hn.
  - apply (ends_vectorize _ [] _ [] _ Hn Hp).
Qed.

(** For Ka >= 0 and [HA]0 >= 0 no step of the discriminant brings in a
    minus sign. *)
Lemma discriminant_not_negative (c_ha_zero ka : float) :
  (0 <=? ka) = true -> (0 <=? c_ha_zero) = true ->
  (pow (PrimFloat.abs ka) 2 <? 0) = false ->
  (square pow ka - 4 * 1 * (- ka * c_ha_zero) <? 0) = false.
Proof.
  intros Hka Hc Hpow.
  apply leb_zero_true in Hka; destruct Hka as [Hka _].
  apply leb_zero_true in Hc; destruct Hc as [Hc _].
  apply ltb_zero_false.
  rewrite FloatAxioms.sub_spec. apply SFsub_sign.
  - unfold square.
    destruct (is_nan ka) eqn:Hnan.
    { apply is_nan_spec in Hnan. rewrite Hnan. exact I. }
    destruct (is_infinity ka); [reflexivity|].
    destruct (ka =? 0); [exact I|].
    destruct (PrimFloat.abs ka =? 1); [reflexivity|].
    apply ltb_zero_false, Hpow.
  - rewrite FloatAxioms.mul_spec.
    apply (SFmul_sign false true); [reflexivity|].
    rewrite FloatAxioms.mul_spec, FloatAxioms.opp_spec.
    apply (SFmul_sign true false); [|exact Hc].
    apply (sign_or_nan_opp false), Hka.
Qed.

(** *** The two checks *)

Lemma ends_test (b pw : bool) (msg : warning) (w : nat) :
  user_warnings [msg] = [msg] ->
  ends (if b then run when pw (warn msg) ;; ret (w + 1)%nat else ret w)
    (if b && pw then [msg] else [])
    (inr (if b then (w + 1)%nat else w)).
Proof.
  intros Hmsg. destruct b, pw; simpl.
  - eapply (ends_bind _ _ [msg] _ []); [apply ends_warn, Hmsg | apply ends_ret].
  - eapply (ends_bind _ _ [] _ []); [apply ends_ret | apply ends_ret].
  - apply ends_ret.
  - apply ends_ret.
Qed.

(** What [check_solution_acid] returns and which of its three messages it
    issues, test by test. *)
Lemma check_solution_acid_run (c_ha_zero ka kw x : float) (pw : bool) :
  let c_A := x - kw / x in
  let c_HA := c_ha_zero - c_A in
  let ka_ := x * c_A / c_HA in
  let t1 := c_A <? 0 in
  let t2 := c_HA <? 0 in
  let t3 := negb (np_isclose ka_ ka 1e-6) in
  ends (check_solution_acid np_errstate c_ha_zero ka kw x pw)
    ((if t1 && pw then [Unphysical_A c_A c_ha_zero ka] else []) ++
     (if t2 && pw then [Unphysical_HA c_HA c_ha_zero ka] else []) ++
     (if t3 && pw then [Inconsistent c_ha_zero ka_ ka] else []))
    (inr (Nat.b2n t1 + Nat.b2n t2 + Nat.b2n t3)%nat).
Proof.
  intros c_A c_HA ka_ t1 t2 t3. unfold check_solution_acid.
  do 3 ends_step.
  eapply ends_bind; [apply ends_test; reflexivity|]. cbv beta.
  do 2 ends_step.
  eapply ends_bind; [apply ends_test; reflexivity|]. cbv beta.
  do 3 ends_step.
  fold c_A c_HA ka_ t1 t2 t3.
  replace (inr (Nat.b2n t1 + Nat.b2n t2 + Nat.b2n t3)%nat)
    with (@inr exn nat
            (if t3 then ((if t2 then ((if t1 then 0 + 1 else 0) + 1) else (if t1 then 0 + 1 else 0)) + 1)
             else (if t2 then ((if t1 then 0 + 1 else 0) + 1) else (if t1 then 0 + 1 else 0)))%nat)
    by (destruct t1, t2, t3; reflexivity).
  rewrite <- (app_nil_r (if t3 && pw then _ else _)).
  eapply ends_bind; [apply ends_test; reflexivity|]. cbv beta.
  apply ends_ret.
Qed.

Lemma ends_truediv_nonzero k a b :
  (b =? 0) = false -> ends (truediv np_errstate k a b) [] (inr (a / b)).
Proof.
  intros Hb. destruct k; simpl; [apply ends_np|]. rewrite Hb. apply ends_ret.
Qed.

Lemma check_solution_base_run k (c_ha_zero ka kw x : float) (pw : bool) :
  (ka =? 0) = false ->
  let c_A := kw / x - x in
  let c_HA := c_ha_zero - c_A in
  let kb := kw / ka in
  let kb_ := x * c_HA / c_A in
  let t1 := c_A <? 0 in
  let t2 := c_HA <? 0 in
  let t3 := negb (np_isclose kb_ kb 1e-6) in
  ends (check_solution_base np_errstate k c_ha_zero ka kw x pw)
    ((if t1 && pw then [Unphysical_A c_A c_ha_zero ka] else []) ++
     (if t2 && pw then [Unphysical_HA c_HA c_ha_zero ka] else []) ++
     (if t3 && pw then [Inconsistent c_ha_zero kb_ kb] else []))
    (inr (Nat.b2n t1 + Nat.b2n t2 + Nat.b2n t3)%nat).
Proof.
  intros Hka c_A c_HA kb kb_ t1 t2 t3. unfold check_solution_base.
  do 3 ends_step.
  eapply ends_bind; [apply ends_test; reflexivity|]. cbv beta.
  do 2 ends_step.
  eapply ends_bind; [apply ends_test; reflexivity|]. cbv beta.
  eapply (ends_bind _ _ [] _ _); [apply ends_truediv_nonzero, Hka|]. cbv beta.
  do 3 ends_step.
  fold c_A c_HA kb kb_ t1 t2 t3.
  replace (inr (Nat.b2n t1 + Nat.b2n t2 + Nat.b2n t3)%nat)
    with (@inr exn nat
            (if t3 then ((if t2 then ((if t1 then 0 + 1 else 0) + 1) else (if t1 then 0 + 1 else 0)) + 1)
             else (if t2 then ((if t1 then 0 + 1 else 0) + 1) else (if t1 then 0 + 1 else 0)))%nat)
    by (destruct t1, t2, t3; reflexivity).
  rewrite <- (app_nil_r (if t3 && pw then _ else _)).
  eapply ends_bind; [apply ends_test; reflexivity|]. cbv beta.
  apply ends_ret.
Qed.

(** The silent acid check issues none of its messages. *)
Lemma check_solution_acid_silent (c_ha_zero ka kw x : float) (w : World) (n : nat) :
  snd (check_solution_acid np_errstate c_ha_zero ka kw x false w) = inr n ->
  ends (check_solution_acid np_errstate c_ha_zero ka kw x false) [] (inr n).
Proof.
  intros Hn.
  pose proof (check_solution_acid_run c_ha_zero ka kw x false) as H.
  cbv zeta in H. rewrite (ends_snd _ _ _ w H) in Hn.
  rewrite !andb_false_r in H. simpl in H.
  injection Hn as <-. exact H.
Qed.

(** The acid check returns 0 exactly when its three tests pass. *)
Lemma check_solution_acid_zero (c_ha_zero ka kw x : float) (pw : bool) (w : World) :
  let c_A := x - kw / x in
  let c_HA := c_ha_zero - c_A in
  snd (check_solution_acid np_errstate c_ha_zero ka kw x pw w) = inr 0%nat <->
  (c_A <? 0) = false /\ (c_HA <? 0) = false /\
  np_isclose (x * c_A / c_HA) ka 1e-6 = true.
Proof.
  intros c_A c_HA.
  pose proof (check_solution_acid_run c_ha_zero ka kw x pw) as H.
  cbv zeta in H. rewrite (ends_snd _ _ _ w H). fold c_A c_HA.
  destruct (c_A <? 0), (c_HA <? 0), (np_isclose (x * c_A / c_HA) ka 1e-6);
    simpl; split; try discriminate; try (intros (? & ? & ?); discriminate); auto.
Qed.

(** *** The branches of [calculate_ph_full] *)

Lemma calculate_ph_full_acid_path k (c_ha_zero ka kw : float)
    (roots_h : list float) (x_h : float) (rest : list float) :
  np_roots [1; ka; - (kw + ka * c_ha_zero); - ka * kw] = inr (float64 roots_h) ->
  positive roots_h = x_h :: rest ->
  ends (check_solution_acid np_errstate c_ha_zero ka kw x_h false) [] (inr 0%nat) ->
  ends (calculate_ph_full_pyfunc np_log10 np_roots np_errstate
          complex_roots_h complex_roots_oh k c_ha_zero ka kw) []
    (inr (Float64 (- np_log10 x_h))).
Proof.
  intros Hroots Hsel Hcheck. unfold calculate_ph_full_pyfunc.
  do 3 ends_step.
  rewrite Hroots. ends_step. ends_step. rewrite Hsel. ends_step.
  eapply (ends_bind _ _ [] _ _); [exact Hcheck|]. cbv beta. simpl.
  repeat ends_step.
Qed.

Lemma calculate_ph_full_acid_empty k (c_ha_zero ka kw : float)
    (roots_h : list float) :
  np_roots [1; ka; - (kw + ka * c_ha_zero); - ka * kw] = inr (float64 roots_h) ->
  positive roots_h = [] ->
  ends (calculate_ph_full_pyfunc np_log10 np_roots np_errstate
          complex_roots_h complex_roots_oh k c_ha_zero ka kw) []
    (inl IndexError).
Proof.
  intros Hroots Hsel. unfold calculate_ph_full_pyfunc.
  do 3 ends_step.
  rewrite Hroots. ends_step. ends_step. rewrite Hsel.
  apply ends_bind_raise, ends_raise.
Qed.

Lemma calculate_ph_full_raises k (c_ha_zero ka kw : float) (e : exn) :
  np_roots [1; ka; - (kw + ka * c_ha_zero); - ka * kw] = inl e ->
  ends (calculate_ph_full_pyfunc np_log10 np_roots np_errstate
          complex_roots_h complex_roots_oh k c_ha_zero ka kw) []
    (inl e).
Proof.
  intros Hroots. unfold calculate_ph_full_pyfunc.
  do 3 ends_step.
  rewrite Hroots. apply ends_bind_raise, ends_lift.
Qed.

Lemma calculate_ph_full_base_path k (c_ha_zero ka kw : float)
    (roots_h : list float) (x_h : float) (rest : list float) (n : nat)
    (roots_oh : list float) (x_oh : float) (rest' : list float)
    (uws : list warning) (m : nat) :
  np_roots [1; ka; - (kw + ka * c_ha_zero); - ka * kw] = inr (float64 roots_h) ->
  positive roots_h = x_h :: rest ->
  ends (check_solution_acid np_errstate c_ha_zero ka kw x_h false) [] (inr (S n)) ->
  (ka =? 0) = false ->
  np_roots [1; c_ha_zero + kw / ka; - kw; - (kw / ka) * kw] = inr (float64 roots_oh) ->
  positive roots_oh = x_oh :: rest' ->
  ends (check_solution_base np_errstate k c_ha_zero ka kw x_oh true) uws (inr m) ->
  ends (calculate_ph_full_pyfunc np_log10 np_roots np_errstate
          complex_roots_h complex_roots_oh k c_ha_zero ka kw) uws
    (inr (Float64 (- np_log10 (kw / x_oh)))).
Proof.
  intros Hroots Hsel Hcheck Hka Hroots' Hsel' Hbase. unfold calculate_ph_full_pyfunc.
  do 3 ends_step.
  rewrite Hroots. ends_step. ends_step. rewrite Hsel. ends_step.
  eapply (ends_bind _ _ [] _ _); [exact Hcheck|]. cbv beta. simpl.
  eapply (ends_bind _ _ [] _ _); [apply ends_truediv_nonzero, Hka|]. cbv beta.
  do 2 ends_step.
  rewrite Hroots'. do 2 ends_step. rewrite Hsel'. do 2 ends_step.
  rewrite <- (app_nil_r uws).
  eapply ends_bind; [exact Hbase|]. cbv beta.
  repeat ends_step.
Qed.

Lemma calculate_ph_full_base_empty k (c_ha_zero ka kw : float)
    (roots_h : list float) (x_h : float) (rest : list float) (n : nat)
    (roots_oh : list float) :
  np_roots [1; ka; - (kw + ka * c_ha_zero); - ka * kw] = inr (float64 roots_h) ->
  positive roots_h = x_h :: rest ->
  ends (check_solution_acid np_errstate c_ha_zero ka kw x_h false) [] (inr (S n)) ->
  (ka =? 0) = false ->
  np_roots [1; c_ha_zero + kw / ka; - kw; - (kw / ka) * kw] = inr (float64 roots_oh) ->
  positive roots_oh = [] ->
  ends (calculate_ph_full_pyfunc np_log10 np_roots np_errstate
          complex_roots_h complex_roots_oh k c_ha_zero ka kw) []
    (inl IndexError).
Proof.
  intros Hroots Hsel Hcheck Hka Hroots' Hsel'. unfold calculate_ph_full_pyfunc.
  do 3 ends_step.
  rewrite Hroots. ends_step. ends_step. rewrite Hsel. ends_step.
  eapply (ends_bind _ _ [] _ _); [exact Hcheck|]. cbv beta. simpl.
  eapply (ends_bind _ _ [] _ _); [apply ends_truediv_nonzero, Hka|]. cbv beta.
  do 2 ends_step.
  rewrite Hroots'. do 2 ends_step. rewrite Hsel'.
  apply ends_bind_raise, ends_raise.
Qed.

Lemma positive_head (roots : list float) (x : float) (rest : list float) :
  positive roots = x :: rest -> In x roots /\ (0 <? x) = true.
Proof.
  intros H.
  assert (Hin : In x (positive roots)) by (rewrite H; left; reflexivity).
  unfold positive in Hin. apply filter_In in Hin. exact Hin.
Qed.

End SolverRuns.

Section SolverClaims.
Local Open Scope float_scope.

Variable pow : float -> float -> float.
Variable np_log10 : float -> float.
Variable np_roots : list float -> exn + ndarray.
Variable np_errstate : ufunc -> list float -> list fp_error.
Variable complex_roots_h complex_roots_oh
  : scalar -> float -> float -> float -> list (float * float) -> M number.

(** C1 (amended): [calculate_ph_full] hands the coefficients
    [1, Ka, -(Kw + Ka [HA]0), -Ka Kw], evaluated in doubles, to numpy.roots.
    When numpy.roots returns an array of doubles with a positive entry, the
    first positive entry x_h is selected, and when [check_solution_acid]
    returns 0 for it the call returns -log10(x_h), raises nothing and issues
    none of the notebook's warnings. *)
Theorem calculate_ph_full_acid_branch
    (c_ha_zero ka kw : float) (w : World)
    (roots_h : list float) (x_h : float) (rest : list float) :
  np_roots [1; ka; - (kw + ka * c_ha_zero); - ka * kw] = inr (float64 roots_h) ->
  positive roots_h = x_h :: rest ->
  snd (check_solution_acid np_errstate c_ha_zero ka kw x_h false w) = inr 0%nat ->
  In x_h roots_h /\ (0 <? x_h) = true /\
  ends (calculate_ph_full np_log10 np_roots np_errstate
          complex_roots_h complex_roots_oh c_ha_zero ka kw) []
    (inr (Float64 (- np_log10 x_h))).
Proof.
  intros Hroots Hsel Hcheck.
  destruct (positive_head _ _ _ Hsel) as [Hin Hpos].
  apply check_solution_acid_silent in Hcheck.
  repeat split; auto.
  unfold calculate_ph_full.
  eapply (ends_vectorize _ [] _ [] _);
    eapply calculate_ph_full_acid_path; eassumption.
Qed.

(** C2 (amended): when [check_solution_acid] reports a problem for the
    selected root, Ka is not zero and numpy.roots returns an array of
    doubles for the base cubic [1, [HA]0 + Kb, -Kw, -Kb Kw] (Kb = Kw / Ka):
    if that array has a positive entry, the first one, x_oh, is taken and
    the call returns -log10(Kw / x_oh); it raises nothing, and the
    notebook's warnings are those of [check_solution_base] with
    [print_warning=True], issued in each of the two evaluations
    [np.vectorize] makes.  If the array has no positive entry the call
    raises IndexError. *)
Theorem calculate_ph_full_fallback
    (c_ha_zero ka kw : float) (w : World)
    (roots_h : list float) (x_h : float) (rest : list float) (n : nat)
    (roots_oh : list float) :
  np_roots [1; ka; - (kw + ka * c_ha_zero); - ka * kw] = inr (float64 roots_h) ->
  positive roots_h = x_h :: rest ->
  snd (check_solution_acid np_errstate c_ha_zero ka kw x_h false w) = inr n ->
  (0 < n)%nat ->
  (ka =? 0) = false ->
  np_roots [1; c_ha_zero + kw / ka; - kw; - (kw / ka) * kw] = inr (float64 roots_oh) ->
  match positive roots_oh with
  | x_oh :: _ =>
      exists (uws : list warning) (m : nat),
        ends (check_solution_base np_errstate PythonFloat c_ha_zero ka kw x_oh true)
          uws (inr m) /\
        ends (calculate_ph_full np_log10 np_roots np_errstate
                complex_roots_h complex_roots_oh c_ha_zero ka kw) (uws ++ uws)
          (inr (Float64 (- np_log10 (kw / x_oh))))
  | [] =>
      ends (calculate_ph_full np_log10 np_roots np_errstate
              complex_roots_h complex_roots_oh c_ha_zero ka kw) []
        (inl IndexError)
  end.
Proof.
  intros Hroots Hsel Hcheck Hn Hka Hroots'.
  apply check_solution_acid_silent in Hcheck.
  destruct n as [|n]; [lia|].
  destruct (positive roots_oh) as [|x_oh rest'] eqn:Hsel'.
  - unfold calculate_ph_full. apply ends_vectorize_raise.
    eapply calculate_ph_full_base_empty; eassumption.
  - pose proof (fun k => check_solution_base_run np_errstate k c_ha_zero ka kw x_oh true Hka)
      as Hbase. cbv zeta in Hbase.
    eexists _, _. split; [apply (Hbase PythonFloat)|].
    unfold calculate_ph_full.
    eapply ends_vectorize; eapply calculate_ph_full_base_path; try eassumption;
      apply Hbase.
Qed.

(** C4 (amended): [calculate_ph_approximate] evaluates the discriminant
    d = Ka ** 2 - 4 * 1 * (-Ka * [HA]0) in doubles.  It raises ValueError
    exactly when d < 0; otherwise it raises OverflowError when Ka ** 2
    overflows, and else returns -log10(x) for x = (-Ka + sqrt(d)) / 2 as
    the doubles give it (x can be 0, and the result inf or nan). *)
Theorem calculate_ph_approximate_quadratic (c_ha_zero ka : float) :
  let d := square pow ka - 4 * 1 * (- ka * c_ha_zero) in
  let x := (- ka + PrimFloat.sqrt d) / (2 * 1) in
  ends (calculate_ph_approximate pow np_log10 np_errstate c_ha_zero ka) []
    (if d <? 0 then inl ValueError
     else if square_overflows pow ka then inl OverflowError
     else inr (- np_log10 x)) /\
  forall w : World,
    snd (calculate_ph_approximate pow np_log10 np_errstate c_ha_zero ka w)
    = inl ValueError <-> (d <? 0) = true.
Proof.
  intros d x.
  pose proof (calculate_ph_approximate_run pow np_log10 np_errstate c_ha_zero ka) as H.
  cbv zeta in H. fold d in H. fold x in H.
  split; [exact H|].
  intros w. rewrite (ends_snd _ _ _ w H).
  destruct (d <? 0); [split; reflexivity|].
  destruct (square_overflows pow ka); split; discriminate.
Qed.

(** C5 (amended): whenever [calculate_ph_full] returns through the acid
    branch with a root x taken from an array of doubles, and Kw >= 0, the
    concentrations c_OH = Kw / x, c_A = x - c_OH and c_HA = [HA]0 - c_A are
    at least zero, and [np.isclose(x * c_A / c_HA, Ka, atol=1e-6)] holds:
    the two differ by at most 1e-6 + 1e-5 |Ka| when both are finite (the
    default relative tolerance is added), and are equal otherwise. *)
Theorem acid_branch_concentrations
    (c_ha_zero ka kw : float) (w : World)
    (roots_h : list float) (x : float) (rest : list float) :
  np_roots [1; ka; - (kw + ka * c_ha_zero); - ka * kw] = inr (float64 roots_h) ->
  positive roots_h = x :: rest ->
  snd (check_solution_acid np_errstate c_ha_zero ka kw x false w) = inr 0%nat ->
  (0 <=? kw) = true ->
  let c_OH := kw / x in
  let c_A := x - c_OH in
  let c_HA := c_ha_zero - c_A in
  let ka_ := x * c_A / c_HA in
  ends (calculate_ph_full np_log10 np_roots np_errstate
          complex_roots_h complex_roots_oh c_ha_zero ka kw) []
    (inr (Float64 (- np_log10 x))) /\
  (0 <=? c_OH) = true /\ (0 <=? c_A) = true /\ (0 <=? c_HA) = true /\
  (if is_finite ka_ && is_finite ka
   then PrimFloat.abs (ka_ - ka) <=? 1e-6 + 1e-5 * PrimFloat.abs ka
   else ka_ =? ka) = true.
Proof.
  intros Hroots Hsel Hcheck Hkw c_OH c_A c_HA ka_.
  destruct (positive_head _ _ _ Hsel) as [_ Hpos].
  pose proof Hcheck as Hzero.
  apply check_solution_acid_zero in Hzero. cbv zeta in Hzero.
  fold c_OH in Hzero. fold c_A in Hzero. fold c_HA in Hzero. fold ka_ in Hzero.
  destruct Hzero as (HA & HHA & Hclose).
  apply check_solution_acid_silent in Hcheck.
  pose proof (np_isclose_not_nan _ _ _ Hclose) as Nka_.
  destruct (div_not_nan _ _ Nka_) as [Np NHA].
  destruct (mul_not_nan _ _ Np) as [_ NA].
  destruct (sub_not_nan _ _ NA) as [_ NOH].
  split; [|repeat split].
  - unfold calculate_ph_full.
    eapply (ends_vectorize _ [] _ [] _);
      eapply calculate_ph_full_acid_path; eassumption.
  - apply leb_zero_true. split; [apply div_by_positive; assumption|].
    apply is_nan_false, NOH.
  - apply not_negative_leb; assumption.
  - apply not_negative_leb; assumption.
  - exact Hclose.
Qed.

(** C7 (amended): for Ka >= 0 and [HA]0 >= 0 (and a [pow] that returns no
    negative square) the discriminant computed by
    [calculate_ph_approximate] is not negative, so the ValueError branch is
    not taken: the call returns a value, unless Ka ** 2 overflows, when it
    raises OverflowError. *)
Theorem calculate_ph_approximate_returns (c_ha_zero ka : float) :
  (0 <=? ka) = true -> (0 <=? c_ha_zero) = true ->
  (pow (PrimFloat.abs ka) 2 <? 0) = false ->
  let d := square pow ka - 4 * 1 * (- ka * c_ha_zero) in
  (d <? 0) = false /\
  ends (calculate_ph_approximate pow np_log10 np_errstate c_ha_zero ka) []
    (if square_overflows pow ka then inl OverflowError
     else inr (- np_log10 ((- ka + PrimFloat.sqrt d) / (2 * 1)))).
Proof.
  intros Hka Hc Hpow d.
  pose proof (discriminant_not_negative pow c_ha_zero ka Hka Hc Hpow) as Hd.
  fold d in Hd. split; [exact Hd|].
  pose proof (calculate_ph_approximate_run pow np_log10 np_errstate c_ha_zero ka) as H.
  cbv zeta in H. fold d in H. rewrite Hd in H. exact H.
Qed.

End SolverClaims.

Local Open Scope float_scope.

Lemma calculate_ph_full_acid_branch_witness :
  (roots_123 [1; 2; - (3 + 2 * 1); - 2 * 3] = inr (float64 [-3.000000000000001; 2; -1]) /\
   positive [-3.000000000000001; 2; -1] = [2] /\
   snd (check_solution_acid ieee_errors 1 2 3 2 false empty_world) = inr 0%nat) /\
  In 2 [-3.000000000000001; 2; -1] /\ (0 <? 2) = true /\
  ends (calculate_ph_full log10_table roots_123 ieee_errors
          no_complex_roots no_complex_roots 1 2 3) []
    (inr (Float64 (- log10_table 2))).
Proof.
  assert (H1 : roots_123 [1; 2; - (3 + 2 * 1); - 2 * 3]
               = inr (float64 [-3.000000000000001; 2; -1])) by (vm_compute; reflexivity).
  assert (H2 : positive [-3.000000000000001; 2; -1] = [2]) by (vm_compute; reflexivity).
  assert (H3 : snd (check_solution_acid ieee_errors 1 2 3 2 false empty_world) = inr 0%nat)
    by (vm_compute; reflexivity).
  split; [repeat split; assumption|].
  exact (calculate_ph_full_acid_branch log10_table roots_123 ieee_errors
           no_complex_roots no_complex_roots 1 2 3 empty_world _ 2 [] H1 H2 H3).
Defined.

(** C1, as stated, fails: for the positive doubles [HA]0 = Ka = 1e200 and
    Kw = 1e-14 the coefficient -(Kw + Ka [HA]0) overflows to -inf and
    numpy.roots raises LinAlgError: no root is selected and nothing is
    returned. *)
Lemma calculate_ph_full_overflow_raises :
  (0 <? 1e200) = true /\ (0 <? 1e-14) = true /\
  - (1e-14 + 1e200 * 1e200) = neg_infinity /\
  snd (calculate_ph_full log10_table (roots_table []) ieee_errors
         no_complex_roots no_complex_roots 1e200 1e200 1e-14 empty_world)
  = inl LinAlgError.
Proof. vm_compute. repeat split; reflexivity. Qed.

Lemma calculate_ph_full_fallback_witness :
  (roots_off [1; 2; - (3 + 2 * 1); - 2 * 3] = inr (float64 [-3; 2.001; -1]) /\
   positive [-3; 2.001; -1] = [2.001] /\
   snd (check_solution_acid ieee_errors 1 2 3 2.001 false empty_world) = inr 1%nat /\
   (0 < 1)%nat /\ (2 =? 0) = false /\
   roots_off [1; 1 + 3 / 2; - 3; - (3 / 2) * 3] = inr (float64 [-3; 1.5001; -1])) /\
  exists (uws : list warning) (m : nat),
    ends (check_solution_base ieee_errors PythonFloat 1 2 3 1.5001 true) uws (inr m) /\
    ends (calculate_ph_full log10_table roots_off ieee_errors
            no_complex_roots no_complex_roots 1 2 3) (uws ++ uws)
      (inr (Float64 (- log10_table (3 / 1.5001)))).
Proof.
  assert (H1 : roots_off [1; 2; - (3 + 2 * 1); - 2 * 3]
               = inr (float64 [-3; 2.001; -1])) by (vm_compute; reflexivity).
  assert (H2 : positive [-3; 2.001; -1] = [2.001]) by (vm_compute; reflexivity).
  assert (H3 : snd (check_solution_acid ieee_errors 1 2 3 2.001 false empty_world)
               = inr 1%nat) by (vm_compute; reflexivity).
  assert (H4 : (0 < 1)%nat) by lia.
  assert (H5 : (2 =? 0) = false) by (vm_compute; reflexivity).
  assert (H6 : roots_off [1; 1 + 3 / 2; - 3; - (3 / 2) * 3]
               = inr (float64 [-3; 1.5001; -1])) by (vm_compute; reflexivity).
  split; [repeat split; assumption|].
  exact (calculate_ph_full_fallback log10_table roots_off ieee_errors
           no_complex_roots no_complex_roots 1 2 3 empty_world _ 2.001 [] 1%nat _
           H1 H2 H3 H4 H5 H6).
Defined.

(** C2, as stated, fails: with [HA]0 = 5/3, Ka = -6 and Kw = -1 the acid
    check reports a problem for the selected root 3, the base cubic has
    positive coefficients throughout and so no positive root, and the
    selection [roots_oh[roots_oh > 0][0]] raises IndexError. *)
Lemma calculate_ph_full_fallback_raises :
  positive [3; 2; 1] = [3; 2; 1] /\
  snd (check_solution_acid ieee_errors 1.6666666666666667 (-6) (-1) 3 false
         empty_world) = inr 1%nat /\
  positive [-1; -0.5; -0.3333333333333333] = [] /\
  snd (calculate_ph_full log10_table roots_neg ieee_errors
         no_complex_roots no_complex_roots 1.6666666666666667 (-6) (-1)
         empty_world)
  = inl IndexError.
Proof. vm_compute. repeat split; reflexivity. Qed.

(** C4, as stated, fails: at [HA]0 = Ka = 1e200 the discriminant is not
    negative (it is +inf in doubles) and yet nothing is returned: Ka ** 2
    overflows and the call raises OverflowError. *)
Lemma calculate_ph_approximate_overflow :
  (square pow_square 1e200 - 4 * 1 * (- 1e200 * 1e200) <? 0) = false /\
  square pow_square 1e200 - 4 * 1 * (- 1e200 * 1e200) = infinity /\
  snd (calculate_ph_approximate pow_square log10_table ieee_errors 1e200 1e200
         empty_world)
  = inl OverflowError.
Proof. vm_compute. repeat split; reflexivity. Qed.

(** [calculate_ph_approximate] on round numbers: [HA]0 = 2, Ka = 1 gives
    d = 9, x = 1 and pH = -0.0; [HA]0 = -1, Ka = 1 gives d = -3; and
    [HA]0 = 1, Ka = 0 gives x = 0 and pH = inf. *)
Example calculate_ph_approximate_examples :
  calculate_ph_approximate pow_square log10_table ieee_errors 2 1 empty_world
  = (empty_world, inr (-0)) /\
  calculate_ph_approximate pow_square log10_table ieee_errors (-1) 1 empty_world
  = (empty_world, inl ValueError) /\
  snd (calculate_ph_approximate pow_square log10_table ieee_errors 1 0 empty_world)
  = inr infinity.
Proof. vm_compute. repeat split; reflexivity. Qed.

Lemma acid_branch_concentrations_witness :
  (roots_123 [1; 2; - (3 + 2 * 1); - 2 * 3] = inr (float64 [-3.000000000000001; 2; -1]) /\
   positive [-3.000000000000001; 2; -1] = [2] /\
   snd (check_solution_acid ieee_errors 1 2 3 2 false empty_world) = inr 0%nat /\
   (0 <=? 3) = true) /\
  ends (calculate_ph_full log10_table roots_123 ieee_errors
          no_complex_roots no_complex_roots 1 2 3) []
    (inr (Float64 (- log10_table 2))) /\
  (0 <=? 3 / 2) = true /\ (0 <=? 2 - 3 / 2) = true /\
  (0 <=? 1 - (2 - 3 / 2)) = true /\
  (if is_finite (2 * (2 - 3 / 2) / (1 - (2 - 3 / 2))) && is_finite 2
   then PrimFloat.abs (2 * (2 - 3 / 2) / (1 - (2 - 3 / 2)) - 2)
        <=? 1e-6 + 1e-5 * PrimFloat.abs 2
   else 2 * (2 - 3 / 2) / (1 - (2 - 3 / 2)) =? 2) = true.
Proof.
  assert (H1 : roots_123 [1; 2; - (3 + 2 * 1); - 2 * 3]
               = inr (float64 [-3.000000000000001; 2; -1])) by (vm_compute; reflexivity).
  assert (H2 : positive [-3.000000000000001; 2; -1] = [2]) by (vm_compute; reflexivity).
  assert (H3 : snd (check_solution_acid ieee_errors 1 2 3 2 false empty_world) = inr 0%nat)
    by (vm_compute; reflexivity).
  assert (H4 : (0 <=? 3) = true) by (vm_compute; reflexivity).
  split; [repeat split; assumption|].
  exact (acid_branch_concentrations log10_table roots_123 ieee_errors
           no_complex_roots no_complex_roots 1 2 3 empty_world _ 2 [] H1 H2 H3 H4).
Defined.

(** C5, as stated, fails twice.  (a) [np.isclose] adds its default
    relative tolerance: at [HA]0 = 0.1, Ka = 1e6, Kw = 1e-14 a root within
    1e-13 of the exact one passes the check, the call returns through the
    acid branch, and x c_A / c_HA is more than 5 away from Ka.  (b) nothing
    tests c_OH: at [HA]0 = 9, Ka = 2 and Kw = -5 the root 2 passes the
    check and c_OH = -5/2. *)
Lemma acid_branch_beyond_claim :
  (let x := 0.09999999000005 in
   let c_A := x - 1e-14 / x in
   let c_HA := 0.1 - c_A in
   positive [-1000000.1; 0.09999999000005; -1e-13] = [x] /\
   snd (check_solution_acid ieee_errors 0.1 1e6 1e-14 x false empty_world)
   = inr 0%nat /\
   snd (calculate_ph_full log10_table roots_1e6 ieee_errors
          no_complex_roots no_complex_roots 0.1 1e6 1e-14 empty_world)
   = inr (Float64 (- log10_table x)) /\
   (5 <? PrimFloat.abs (x * c_A / c_HA - 1e6)) = true) /\
  (positive [-5; 2; 1] = [2; 1] /\
   snd (check_solution_acid ieee_errors 9 2 (-5) 2 false empty_world)
   = inr 0%nat /\
   snd (calculate_ph_full log10_table roots_kw_neg ieee_errors
          no_complex_roots no_complex_roots 9 2 (-5) empty_world)
   = inr (Float64 (- log10_table 2)) /\
   -5 / 2 = -2.5 /\ (-5 / 2 <? 0) = true).
Proof. vm_compute. repeat split; reflexivity. Qed.

Lemma calculate_ph_approximate_returns_witness :
  ((0 <=? 1) = true /\ (0 <=? 2) = true /\
   (pow_square (PrimFloat.abs 1) 2 <? 0) = false) /\
  (square pow_square 1 - 4 * 1 * (- 1 * 2) <? 0) = false /\
  ends (calculate_ph_approximate pow_square log10_table ieee_errors 2 1) []
    (inr (- log10_table 1)).
Proof.
  assert (H1 : (0 <=? 1) = true) by (vm_compute; reflexivity).
  assert (H2 : (0 <=? 2) = true) by (vm_compute; reflexivity).
  assert (H3 : (pow_square (PrimFloat.abs 1) 2 <? 0) = false) by (vm_compute; reflexivity).
  split; [repeat split; assumption|].
  exact (calculate_ph_approximate_returns pow_square log10_table ieee_errors 2 1 H1 H2 H3).
Defined.

(** C7, as stated, fails: Ka = 1e200 and [HA]0 = 0.001 are not negative,
    and the call returns no value: Ka ** 2 overflows and it raises
    OverflowError. *)
Lemma calculate_ph_approximate_returns_overflow :
  (0 <=? 1e200) = true /\ (0 <=? 0.001) = true /\
  snd (calculate_ph_approximate pow_square log10_table ieee_errors 0.001 1e200
         empty_world)
  = inl OverflowError.
Proof. vm_compute. repeat split; reflexivity. Qed.

Local Close Scope float_scope.

(** ** The ESOL notebook *)

(** C8: if [output_file] names an existing file, [download_data_file]
    returns [output_file]; no request is sent and no file is touched: the
    world differs only by the line printed. *)
Theorem download_data_file_skips_existing
    (url output_file contents : string) (w : World) :
  files w !! output_file = Some (File contents) ->
  download_data_file url output_file w
  = (set_stdout w
       (stdout w ++ ["File " +:+ output_file +:+ " exists - skipping download"]),
     inr (Some output_file)) /\
  requests (fst (download_data_file url output_file w)) = requests w /\
  files (fst (download_data_file url output_file w)) = files w.
Proof.
  intros Hfile.
  assert (E : download_data_file url output_file w
              = (set_stdout w
                   (stdout w ++
                    ["File " +:+ output_file +:+ " exists - skipping download"]),
                 inr (Some output_file))).
  { unfold download_data_file, bind, is_file; rewrite Hfile; reflexivity. }
  rewrite E; repeat split; reflexivity.
Qed.

Lemma download_data_file_skips_existing_witness :
  files cached_world !! "delaney.csv" = Some (File "smiles,logS") /\
  download_data_file "https://example.org/delaney.csv" "delaney.csv" cached_world
  = (set_stdout cached_world
       (stdout cached_world
        ++ ["File " +:+ "delaney.csv" +:+ " exists - skipping download"]),
     inr (Some "delaney.csv")) /\
  requests (fst (download_data_file "https://example.org/delaney.csv"
                   "delaney.csv" cached_world)) = requests cached_world /\
  files (fst (download_data_file "https://example.org/delaney.csv"
                "delaney.csv" cached_world)) = files cached_world.
Proof.
  assert (H : files cached_world !! "delaney.csv" = Some (File "smiles,logS"))
    by apply lookup_singleton_eq.
  split; [exact H|].
  exact (download_data_file_skips_existing "https://example.org/delaney.csv"
           "delaney.csv" "smiles,logS" cached_world H).
Defined.

(** The other two paths of [download_data_file], on an empty directory. *)
Example download_data_file_fetches :
  download_data_file "https://example.org/delaney.csv" "delaney.csv"
    (fresh_world 200)
  = ({| files := {[ "delaney.csv" := File "fresh" ]};
        remote := remote (fresh_world 200);
        requests := ["https://example.org/delaney.csv"];
        stdout := ["Downloaded file to: delaney.csv"];
        warned := [] |},
     inr (Some "delaney.csv")).
Proof. vm_compute; reflexivity. Qed.

Example download_data_file_not_found :
  download_data_file "https://example.org/delaney.csv" "delaney.csv"
    (fresh_world 404)
  = ({| files := ∅;
        remote := remote (fresh_world 404);
        requests := ["https://example.org/delaney.csv"];
        stdout := ["Could not download file: 404"];
        warned := [] |},
     inr None).
Proof. vm_compute; reflexivity. Qed.

Section CorrelationFacts.
Local Open Scope R_scope.

Variable pearson : list R -> list R -> option R.

Lemma gt_true (v : option R) (t : R) :
  gt v t = true <-> exists r, v = Some r /\ t < r.
Proof.
  unfold gt; destruct v as [r|].
  - destruct (Rlt_dec t r); split.
    + intros _; exists r; auto.
    + reflexivity.
    + discriminate.
    + intros (r' & E & H); injection E as ->; contradiction.
  - split; [discriminate | intros (r & E & _); discriminate].
Qed.

(** With distinct labels, [upper[column]] is the column at the position of
    that label. *)
Lemma upper_column_at (df : list Series) (j : nat) (b : Series) :
  NoDup (label <$> df) -> df !! j = Some b ->
  upper_column pearson df (label b)
  = (fun i => upper pearson df i j) <$> seq 0 (length df).
Proof.
  intros Hnd Hj. unfold upper_column.
  assert (Hfind : list_find (fun s => label s = label b) df = Some (j, b)).
  { apply list_find_Some. split; [exact Hj|]. split; [reflexivity|].
    intros k y Hk Hlt Hy.
    assert (k = j); [|lia].
    apply (NoDup_lookup (label <$> df) k j (label b) Hnd);
      rewrite list_lookup_fmap; [rewrite Hk; simpl; rewrite Hy | rewrite Hj];
      reflexivity. }
  rewrite Hfind; reflexivity.
Qed.

Lemma any_upper_column (df : list Series) (j : nat) (b : Series) :
  df !! j = Some b ->
  existsb (fun v => gt v (975 / 1000))
    ((fun i => upper pearson df i j) <$> seq 0 (length df)) = true
  <-> correlated_with_earlier pearson df j.
Proof.
  intros Hj. rewrite existsb_exists. split.
  - intros (v & Hin & Hgt).
    apply list_elem_of_In, list_elem_of_fmap in Hin. destruct Hin as (i & -> & _).
    apply gt_true in Hgt. destruct Hgt as (r & Hup & Hr).
    unfold upper, triu_k1, corr_abs in Hup.
    destruct (Nat.ltb_spec i j) as [Hlt|]; [|discriminate].
    rewrite Hj in Hup.
    destruct (df !! i) as [a|] eqn:Hi; [|discriminate].
    destruct (pearson (values a) (values b)) as [r0|] eqn:Hp; [|discriminate].
    simpl in Hup; injection Hup as <-.
    exists i, a, b, r0; auto.
  - intros (i & a & b' & r & Hlt & Hi & Hj' & Hp & Hr).
    rewrite Hj in Hj'; injection Hj' as <-.
    exists (upper pearson df i j). split.
    + apply list_elem_of_In, list_elem_of_fmap. exists i; split; [reflexivity|].
      apply elem_of_seq. apply lookup_lt_Some in Hj. lia.
    + apply gt_true. exists (Rabs r); split; [|exact Hr].
      unfold upper, triu_k1, corr_abs.
      destruct (Nat.ltb_spec i j); [|lia].
      rewrite Hi, Hj, Hp; reflexivity.
Qed.

Lemma to_drop_iff (df : list Series) (j : nat) (b : Series) :
  NoDup (label <$> df) -> df !! j = Some b ->
  label b ∈ to_drop pearson df <-> correlated_with_earlier pearson df j.
Proof.
  intros Hnd Hj. unfold to_drop.
  rewrite list_elem_of_In, filter_In, (upper_column_at df j b Hnd Hj).
  rewrite (any_upper_column df j b Hj).
  split; [intros [_ H]; exact H|].
  intros H; split; [|exact H].
  apply list_elem_of_In, list_elem_of_fmap_2, (list_elem_of_lookup_2 _ j), Hj.
Qed.

Lemma DataFrame_drop_elem (df : list Series) (labels : list string) (b : Series) :
  b ∈ DataFrame_drop df labels <-> b ∈ df /\ label b ∉ labels.
Proof.
  unfold DataFrame_drop.
  rewrite list_elem_of_In, filter_In, <- list_elem_of_In. cbv beta.
  destruct (bool_decide (label b ∈ labels)) eqn:E; simpl.
  - apply bool_decide_eq_true in E. split; [intros [_ H]; discriminate|].
    intros [_ H]; contradiction.
  - apply bool_decide_eq_false in E. split; intros [H _]; auto.
Qed.

Lemma DataFrame_drop_nothing (df : list Series) : DataFrame_drop df [] = df.
Proof.
  unfold DataFrame_drop. induction df as [|b df IH]; [reflexivity|].
  cbn [List.filter].
  destruct (bool_decide (label b ∈ [])) eqn:E.
  - apply bool_decide_eq_true in E. inversion E.
  - cbn [negb]. f_equal. exact IH.
Qed.

Lemma DataFrame_drop_sublist (df : list Series) (labels : list string) :
  DataFrame_drop df labels `sublist_of` df.
Proof.
  unfold DataFrame_drop. induction df as [|b df IH]; simpl; [constructor|].
  destruct (negb (bool_decide (label b ∈ labels))); constructor; exact IH.
Qed.

Lemma remove_correlated_run (df : list Series) (w : World) :
  exists w',
    remove_correlated pearson df w
    = (w', inr (DataFrame_drop df (to_drop pearson df))) /\
    files w' = files w /\ requests w' = requests w.
Proof.
  unfold remove_correlated.
  destruct (to_drop pearson df) as [|l ls] eqn:E; simpl.
  - exists w; rewrite DataFrame_drop_nothing; auto.
  - eexists; split; [reflexivity|]; split; reflexivity.
Qed.

End CorrelationFacts.

(** C9: in a descriptor frame (distinct column labels) the filtering step
    drops a column exactly when the absolute Pearson correlation of that
    column with some column before it in column order exceeds 0.975; the
    columns that remain are the others, unchanged and in their order. *)
Theorem remove_correlated_drops_exactly
    (pearson : list R -> list R -> option R) (df : list Series) :
  NoDup (label <$> df) ->
  (forall j b, df !! j = Some b ->
     (label b ∈ to_drop pearson df <-> correlated_with_earlier pearson df j)) /\
  (forall w, exists w',
     remove_correlated pearson df w
     = (w', inr (DataFrame_drop df (to_drop pearson df)))) /\
  (forall b, b ∈ DataFrame_drop df (to_drop pearson df) <->
     exists j, df !! j = Some b /\ ~ correlated_with_earlier pearson df j) /\
  DataFrame_drop df (to_drop pearson df) `sublist_of` df.
Proof.
  intros Hnd.
  split; [intros j b Hj; apply to_drop_iff; assumption|].
  split.
  { intros w. destruct (remove_correlated_run pearson df w) as (w' & H & _).
    exists w'; exact H. }
  split; [|apply DataFrame_drop_sublist].
  intros b. rewrite DataFrame_drop_elem. split.
  - intros [Hin Hnot]. apply list_elem_of_lookup in Hin. destruct Hin as [j Hj].
    exists j; split; [exact Hj|].
    intros Hc; apply Hnot. apply (to_drop_iff pearson df j b Hnd Hj); exact Hc.
  - intros (j & Hj & Hnot). split; [apply (list_elem_of_lookup_2 _ j), Hj|].
    intros Hin; apply Hnot. apply (to_drop_iff pearson df j b Hnd Hj); exact Hin.
Qed.

Lemma three_columns_NoDup : NoDup (label <$> three_columns).
Proof.
  apply (bool_decide_unpack _). vm_compute. exact I.
Defined.

Lemma remove_correlated_drops_exactly_witness :
  NoDup (label <$> three_columns) /\
  (forall j b, three_columns !! j = Some b ->
     (label b ∈ to_drop pearson_of_three three_columns
      <-> correlated_with_earlier pearson_of_three three_columns j)) /\
  DataFrame_drop three_columns (to_drop pearson_of_three three_columns)
    `sublist_of` three_columns.
Proof.
  split; [exact three_columns_NoDup|].
  destruct (remove_correlated_drops_exactly pearson_of_three three_columns
              three_columns_NoDup) as (H1 & _ & _ & H4).
  split; [exact H1 | exact H4].
Defined.

Example to_drop_three_columns :
  to_drop pearson_of_three three_columns = ["HeavyAtomMolWt"].
Proof.
  pose proof three_columns_NoDup as Hnd.
  unfold to_drop.
  change (label <$> three_columns)
    with [label {| label := "MolWt"; values := [1; 2; 3]%R |};
          label {| label := "HeavyAtomMolWt"; values := [2; 4; 6]%R |};
          label {| label := "NumHDonors"; values := [1; 0; 1]%R |}].
  cbn [List.filter].
  rewrite (upper_column_at pearson_of_three three_columns 0 _ Hnd eq_refl).
  rewrite (upper_column_at pearson_of_three three_columns 1 _ Hnd eq_refl).
  rewrite (upper_column_at pearson_of_three three_columns 2 _ Hnd eq_refl).
  unfold upper, triu_k1, corr_abs, gt, pearson_of_three, three_columns.
  cbn -[Rmult Rdiv Rabs IZR Rlt_dec Req_dec_T].
  decide_Req. cbn -[Rmult Rdiv Rabs IZR Rlt_dec Req_dec_T].
  rewrite Rabs_R1, Rabs_R0.
  decide_Rlt. reflexivity.
Qed.

(** ** The fingerprint notebook *)

(** The bond loop of [get_environment]: atoms only grow, the bonds seen are
    added, and both ends of every bond seen end up among the atoms. *)
Lemma bond_loop_invariant (molecule : Mol) (env : list nat) :
  forall (atoms0 bonds0 atoms bonds : gset nat) (w w' : World),
    for_each env
      (fun '(atoms, bonds) bond =>
         do b <- GetBondWithIdx molecule bond ;;
         let atoms := atoms ∪ {[GetBeginAtomIdx b]} in
         do b <- GetBondWithIdx molecule bond ;;
         let atoms := atoms ∪ {[GetEndAtomIdx b]} in
         let bonds := bonds ∪ {[bond]} in
         ret (atoms, bonds))
      (atoms0, bonds0) w = (w', inr (atoms, bonds)) ->
    atoms0 ⊆ atoms /\
    bonds = bonds0 ∪ list_to_set env /\
    forall bond, bond ∈ env ->
      exists b, mol_bonds molecule !! bond = Some b /\
                GetBeginAtomIdx b ∈ atoms /\ GetEndAtomIdx b ∈ atoms.
Proof.
  induction env as [|bond env IH]; intros atoms0 bonds0 atoms bonds w w' Hrun.
  - simpl in Hrun; unfold ret in Hrun; inversion Hrun; subst.
    split; [set_solver|]. split; [set_solver|].
    intros b Hb; inversion Hb.
  - simpl in Hrun. unfold bind at 1 in Hrun. unfold bind at 1 in Hrun.
    unfold GetBondWithIdx at 1 in Hrun.
    destruct (mol_bonds molecule !! bond) as [b|] eqn:Hb;
      [|unfold raise in Hrun; discriminate].
    unfold ret at 1 in Hrun. unfold bind at 1 in Hrun.
    unfold GetBondWithIdx at 1 in Hrun. rewrite Hb in Hrun.
    unfold ret at 1 2 in Hrun.
    apply IH in Hrun. destruct Hrun as (Hsub & Hbonds & Hends).
    split; [set_solver|]. split; [set_solver|].
    intros bond' Hin. apply elem_of_cons in Hin. destruct Hin as [->|Hin].
    + exists b; split; [exact Hb|]. split; set_solver.
    + apply Hends; exact Hin.
Qed.

(** The colour loop gives one key per atom visited. *)
Lemma atom_colors_dom (molecule : Mol) (centers : option (gset nat))
    (atoms : list nat) :
  forall (colors0 colors : gmap nat color) (w w' : World),
    for_each atoms
      (fun colors atom =>
         if match centers with
            | Some cs => bool_decide (atom ∈ cs)
            | None => false
            end
         then ret (<[atom := COLOR_MAP Center_atom]> colors)
         else
           do a <- GetAtomWithIdx molecule atom ;;
           if GetIsAromatic a
           then ret (<[atom := COLOR_MAP Aromatic_atom]> colors)
           else
             do a <- GetAtomWithIdx molecule atom ;;
             if IsInRing a
             then ret (<[atom := COLOR_MAP Atom_in_a_ring]> colors)
             else ret (<[atom := COLOR_MAP Other_atoms]> colors))
      colors0 w = (w', inr colors) ->
    dom colors = dom colors0 ∪ list_to_set atoms.
Proof.
  induction atoms as [|atom atoms IH]; intros colors0 colors w w' Hrun.
  - simpl in Hrun; unfold ret in Hrun; inversion Hrun; subst. set_solver.
  - simpl in Hrun. unfold bind at 1 in Hrun.
    destruct (match centers with
              | Some cs => bool_decide (atom ∈ cs)
              | None => false
              end).
    + unfold ret at 1 in Hrun. apply IH in Hrun.
      rewrite Hrun, dom_insert_L. set_solver.
    + unfold bind at 1 in Hrun. unfold GetAtomWithIdx at 1 in Hrun.
      destruct (mol_atoms molecule !! atom) as [a|] eqn:Ha;
        [|unfold raise in Hrun; discriminate].
      unfold ret at 1 in Hrun.
      destruct (GetIsAromatic a).
      * unfold ret at 1 in Hrun. apply IH in Hrun.
        rewrite Hrun, dom_insert_L. set_solver.
      * unfold bind at 1 in Hrun. unfold GetAtomWithIdx at 1 in Hrun.
        rewrite Ha in Hrun. unfold ret at 1 in Hrun.
        destruct (IsInRing a); unfold ret at 1 in Hrun; apply IH in Hrun;
          rewrite Hrun, dom_insert_L; set_solver.
Qed.

Lemma bond_colors_dom (bonds : list nat) :
  dom (get_bond_colors bonds) = list_to_set bonds.
Proof.
  unfold get_bond_colors.
  assert (H : forall (colors0 : gmap nat color),
            dom (foldl (fun colors bond => <[bond := COLOR_MAP Bonds]> colors)
                   colors0 bonds)
            = dom colors0 ∪ list_to_set bonds).
  { induction bonds as [|b bonds IH]; intros colors0; simpl.
    - set_solver.
    - rewrite IH, dom_insert_L. set_solver. }
  rewrite H. set_solver.
Qed.

(** C10: when [get_environment] returns, the atoms list contains the
    centre atom, both ends of every returned bond are in the atoms list,
    and the keys of [atom_colors] and [bond_colors] are exactly the
    returned atoms and bonds. *)
Theorem get_environment_invariants
    (FindAtomEnvironmentOfRadiusN : Mol -> nat -> nat -> exn + list nat)
    (molecule : Mol) (center radius : nat) (w w' : World)
    (atoms bonds : list nat) (atom_colors bond_colors : gmap nat color) :
  get_environment FindAtomEnvironmentOfRadiusN molecule center radius w
  = (w', inr (atoms, bonds, atom_colors, bond_colors)) ->
  center ∈ atoms /\
  (forall bond, bond ∈ bonds ->
     exists b, mol_bonds molecule !! bond = Some b /\
               GetBeginAtomIdx b ∈ atoms /\ GetEndAtomIdx b ∈ atoms) /\
  dom atom_colors = list_to_set atoms /\
  dom bond_colors = list_to_set bonds.
Proof.
  intros Hrun.
  unfold get_environment in Hrun.
  unfold bind at 1 in Hrun.
  destruct ((if (GetNumConformers molecule =? 0)%nat
             then rdDepictor_Compute2DCoords_mol else ret tt) w)
    as [w1 [e|[]]]; [discriminate|].
  unfold bind at 1 in Hrun. unfold lift in Hrun.
  destruct (FindAtomEnvironmentOfRadiusN molecule radius center) as [e|env];
    [discriminate|].
  unfold bind at 1 in Hrun.
  match type of Hrun with
  | context [for_each env ?body ?init w1] =>
      destruct (for_each env body init w1) as [w2 [e|[atoms1 bonds1]]] eqn:Hloop
  end; [discriminate|].
  apply bond_loop_invariant in Hloop. destruct Hloop as (Hsub & Hbonds & Hends).
  simpl in Hrun. unfold bind at 1 in Hrun.
  match type of Hrun with
  | context [get_atom_colors ?m ?l ?c w2] =>
      destruct (get_atom_colors m l c w2) as [w3 [e|colors]] eqn:Hcol
  end; [discriminate|].
  unfold ret in Hrun. inversion Hrun; subst; clear Hrun.
  unfold get_atom_colors in Hcol.
  apply (atom_colors_dom molecule (Some {[center]})) in Hcol.
  split; [apply elem_of_elements; set_solver|].
  split.
  - intros bond Hin. apply elem_of_elements in Hin.
    destruct (Hends bond) as (b & Hb & H1 & H2); [set_solver|].
    exists b; split; [exact Hb|]. split; apply elem_of_elements; assumption.
  - split; [rewrite Hcol; set_solver | apply bond_colors_dom].
Qed.

Lemma get_environment_invariants_witness :
  get_environment chain3_env chain3 1 1 empty_world
  = (empty_world,
     inr ([2; 1; 0], [1; 0],
          {[ 0 := COLOR_MAP Other_atoms; 1 := COLOR_MAP Center_atom;
             2 := COLOR_MAP Atom_in_a_ring ]},
          {[ 0 := COLOR_MAP Bonds; 1 := COLOR_MAP Bonds ]})) /\
  1 ∈ [2; 1; 0] /\
  (forall bond, bond ∈ [1; 0] ->
     exists b, mol_bonds chain3 !! bond = Some b /\
               GetBeginAtomIdx b ∈ [2; 1; 0] /\ GetEndAtomIdx b ∈ [2; 1; 0]).
Proof.
  assert (Hrun : get_environment chain3_env chain3 1 1 empty_world
    = (empty_world,
       inr ([2; 1; 0], [1; 0],
            {[ 0 := COLOR_MAP Other_atoms; 1 := COLOR_MAP Center_atom;
               2 := COLOR_MAP Atom_in_a_ring ]},
            {[ 0 := COLOR_MAP Bonds; 1 := COLOR_MAP Bonds ]})))
    by (vm_compute; reflexivity).
  split; [exact Hrun|].
  destruct (get_environment_invariants chain3_env chain3 1 1 _ _ _ _ _ _ Hrun)
    as (Hcenter & Hbonds & _).
  split; [exact Hcenter | exact Hbonds].
Defined.

(** * Further properties of the notebooks *)

(** ** The pH solver: the two cubics and the quadratic in exact arithmetic *)

Section SolverExtras.
Local Open Scope R_scope.

Lemma base_cubic_at_quotient c ka kw x :
  ka <> 0 -> x <> 0 ->
  polyval (poly_oh c (kw / ka) kw) (kw / x)
  = - (kw * kw / (ka * (x * x * x))) * polyval (poly_h c ka kw) x.
Proof.
  intros Hka Hx. rewrite polyval_poly_oh, polyval_poly_h. field. split; assumption.
Qed.

Lemma acid_root_of_base_root c ka kw x :
  ka <> 0 -> kw <> 0 -> x <> 0 ->
  polyval (poly_oh c (kw / ka) kw) (kw / x) = 0 ->
  polyval (poly_h c ka kw) x = 0.
Proof.
  intros Hka Hkw Hx H. rewrite (base_cubic_at_quotient _ _ _ _ Hka Hx) in H.
  apply Rmult_integral in H. destruct H as [H|H]; [|exact H].
  exfalso.
  assert (Hn : kw * kw / (ka * (x * x * x)) = 0) by lra.
  assert (Hd : ka * (x * x * x) <> 0).
  { repeat apply Rmult_integral_contrapositive_currified; assumption. }
  apply (Rmult_eq_compat_r (ka * (x * x * x))) in Hn.
  unfold Rdiv in Hn. rewrite Rmult_assoc, Rinv_l, Rmult_1_r, Rmult_0_l in Hn
    by exact Hd.
  apply Rmult_integral in Hn. destruct Hn; contradiction.
Qed.

(** X1: [H+] = x solves the acid cubic exactly when [OH-] = Kw / x solves
    the base cubic of the fallback (Kb = Kw / Ka): the two formulations
    describe the same solution. *)
Theorem acid_root_iff_base_root (c_ha_zero ka kw x : R) :
  ka <> 0 -> kw <> 0 -> x <> 0 ->
  (polyval (poly_h c_ha_zero ka kw) x = 0
   <-> polyval (poly_oh c_ha_zero (kw / ka) kw) (kw / x) = 0).
Proof.
  intros Hka Hkw Hx. split.
  - intros H. rewrite (base_cubic_at_quotient _ _ _ _ Hka Hx), H. ring.
  - apply acid_root_of_base_root; assumption.
Qed.

Lemma acid_root_iff_base_root_witness :
  (2 <> 0 /\ 3 <> 0 /\ 2 <> 0) /\
  (polyval (poly_h 1 2 3) 2 = 0
   <-> polyval (poly_oh 1 (3 / 2) 3) (3 / 2) = 0).
Proof.
  assert (H2 : 2 <> 0) by lra.
  assert (H3 : 3 <> 0) by lra.
  split; [repeat split; assumption|].
  exact (acid_root_iff_base_root 1 2 3 2 H2 H3 H2).
Defined.

(** The acid cubic is positive to the right of its positive root. *)
Lemma acid_cubic_positive_after_root c ka kw x y :
  0 < c -> 0 < ka -> 0 < kw -> 0 < x -> x <= y ->
  polyval (poly_h c ka kw) x = 0 -> 0 <= polyval (poly_h c ka kw) y.
Proof.
  intros Hc Hka Hkw Hx Hxy Px. rewrite polyval_poly_h in *.
  assert (Q : 0 < x * x + ka * x - (kw + ka * c)).
  { assert (E : x * (x * x + ka * x - (kw + ka * c)) = ka * kw) by nra.
    assert (0 < ka * kw) by (apply Rmult_lt_0_compat; lra).
    nra. }
  assert (F : 0 <= (y - x) * (y * y + x * y + x * x + ka * (x + y) - (kw + ka * c))).
  { apply Rmult_le_pos; [lra|]. nra. }
  nra.
Qed.

(** X2: in exact arithmetic and for positive [HA]0, Ka and Kw, the acid
    cubic of [calculate_ph_full] has exactly one positive root, and at that
    root [OH-] = Kw / x, [A-] = x - Kw / x and [HA] = [HA]0 - [A-] are
    positive and x [A-] / [HA] is Ka: the three tests of
    [check_solution_acid] hold of the root itself, so that only rounding
    leads to the fallback. *)
Theorem acid_cubic_unique_physical_root (c_ha_zero ka kw : R) :
  0 < c_ha_zero -> 0 < ka -> 0 < kw ->
  exists x,
    0 < x /\ polyval (poly_h c_ha_zero ka kw) x = 0 /\
    (forall y, 0 < y -> polyval (poly_h c_ha_zero ka kw) y = 0 -> y = x) /\
    0 < kw / x /\ 0 < x - kw / x /\ 0 < c_ha_zero - (x - kw / x) /\
    x * (x - kw / x) / (c_ha_zero - (x - kw / x)) = ka.
Proof.
  intros Hc Hka Hkw.
  destruct (acid_cubic_has_positive_root _ _ _ Hc Hka Hkw) as (x & Hx & Px).
  exists x. split; [exact Hx|]. split; [exact Px|]. split.
  - intros y Hy Py. apply (acid_cubic_positive_root_unique c_ha_zero ka kw); assumption.
  - apply acid_root_physical; assumption.
Qed.

Lemma acid_cubic_unique_physical_root_witness :
  (0 < 1 /\ 0 < 2 /\ 0 < 3) /\
  exists x,
    0 < x /\ polyval (poly_h 1 2 3) x = 0 /\
    (forall y, 0 < y -> polyval (poly_h 1 2 3) y = 0 -> y = x) /\
    0 < 3 / x /\ 0 < x - 3 / x /\ 0 < 1 - (x - 3 / x) /\
    x * (x - 3 / x) / (1 - (x - 3 / x)) = 2.
Proof.
  assert (H1 : 0 < 1) by lra.
  assert (H2 : 0 < 2) by lra.
  assert (H3 : 0 < 3) by lra.
  split; [repeat split; assumption|].
  exact (acid_cubic_unique_physical_root 1 2 3 H1 H2 H3).
Defined.

(** X3: in exact arithmetic and for positive constants the base cubic of
    the fallback (Kb = Kw / Ka) has exactly one positive root y as well,
    and Kw / y is the positive root of the acid cubic: the fallback solves
    for the same [H+]. *)
Theorem base_cubic_unique_positive_root (c_ha_zero ka kw : R) :
  0 < c_ha_zero -> 0 < ka -> 0 < kw ->
  exists y,
    0 < y /\ polyval (poly_oh c_ha_zero (kw / ka) kw) y = 0 /\
    (forall z, 0 < z -> polyval (poly_oh c_ha_zero (kw / ka) kw) z = 0 -> z = y) /\
    0 < kw / y /\ polyval (poly_h c_ha_zero ka kw) (kw / y) = 0.
Proof.
  intros Hc Hka Hkw.
  assert (Hkb : 0 < kw / ka) by (apply Rdiv_lt_0_compat; lra).
  destruct (base_cubic_has_positive_root c_ha_zero _ _ Hkb Hkw) as (y & Hy & Py).
  assert (Hback : forall z, 0 < z ->
            polyval (poly_oh c_ha_zero (kw / ka) kw) z = 0 ->
            0 < kw / z /\ polyval (poly_h c_ha_zero ka kw) (kw / z) = 0).
  { intros z Hz Pz.
    assert (Hq : 0 < kw / z) by (apply Rdiv_lt_0_compat; lra).
    split; [exact Hq|].
    apply acid_root_of_base_root; try lra.
    replace (kw / (kw / z)) with z by (field; lra). exact Pz. }
  destruct (Hback y Hy Py) as [Hqy Pqy].
  exists y. split; [exact Hy|]. split; [exact Py|]. split; [|split; assumption].
  intros z Hz Pz.
  destruct (Hback z Hz Pz) as [Hqz Pqz].
  pose proof (acid_cubic_positive_root_unique c_ha_zero ka kw _ _
                Hc Hka Hkw Hqz Hqy Pqz Pqy) as E.
  assert (Ez : z = kw / (kw / z)) by (field; lra).
  assert (Ey : y = kw / (kw / y)) by (field; lra).
  rewrite Ez, Ey, E. reflexivity.
Qed.

Lemma base_cubic_unique_positive_root_witness :
  (0 < 1 /\ 0 < 2 /\ 0 < 3) /\
  exists y,
    0 < y /\ polyval (poly_oh 1 (3 / 2) 3) y = 0 /\
    (forall z, 0 < z -> polyval (poly_oh 1 (3 / 2) 3) z = 0 -> z = y) /\
    0 < 3 / y /\ polyval (poly_h 1 2 3) (3 / y) = 0.
Proof.
  assert (H1 : 0 < 1) by lra.
  assert (H2 : 0 < 2) by lra.
  assert (H3 : 0 < 3) by lra.
  split; [repeat split; assumption|].
  exact (base_cubic_unique_positive_root 1 2 3 H1 H2 H3).
Defined.

(** X4: in exact arithmetic and for positive constants the positive root
    of the acid cubic lies strictly between sqrt(Kw) and [HA]0 + sqrt(Kw):
    the solution is acidic, and [H+] exceeds the neutral sqrt(Kw) by less
    than [HA]0. *)
Theorem acid_root_above_neutral (c_ha_zero ka kw x : R) :
  0 < c_ha_zero -> 0 < ka -> 0 < kw -> 0 < x ->
  polyval (poly_h c_ha_zero ka kw) x = 0 ->
  sqrt kw < x /\ x < c_ha_zero + sqrt kw.
Proof.
  intros Hc Hka Hkw Hx Px.
  destruct (acid_root_physical c_ha_zero ka kw x Hc Hka Hkw Hx Px) as (_ & HA & HHA & _).
  assert (Hs : 0 < sqrt kw) by (apply sqrt_lt_R0; exact Hkw).
  assert (Hss : sqrt kw * sqrt kw = kw) by (apply sqrt_sqrt; lra).
  assert (Hq : kw / x * x = kw) by (field; lra).
  assert (H1 : sqrt kw < x).
  { destruct (Rlt_dec (sqrt kw) x) as [H|H]; [exact H|exfalso].
    assert (Hle : x <= sqrt kw) by lra.
    assert (kw / x < x) by lra.
    assert (x * x <= sqrt kw * sqrt kw) by (apply Rmult_le_compat; lra).
    assert (kw / x * x < x * x) by (apply Rmult_lt_compat_r; lra).
    lra. }
  split; [exact H1|].
  assert (H2 : kw / x < sqrt kw).
  { apply (Rmult_lt_reg_r x); [exact Hx|]. rewrite Hq, <- Hss at 1.
    apply Rmult_lt_compat_l; assumption. }
  lra.
Qed.

Lemma acid_root_above_neutral_witness :
  (0 < 1 /\ 0 < 2 /\ 0 < 3 /\ 0 < 2 /\ polyval (poly_h 1 2 3) 2 = 0) /\
  sqrt 3 < 2 /\ 2 < 1 + sqrt 3.
Proof.
  assert (H1 : 0 < 1) by lra.
  assert (H2 : 0 < 2) by lra.
  assert (H3 : 0 < 3) by lra.
  assert (P : polyval (poly_h 1 2 3) 2 = 0) by (rewrite polyval_poly_h; lra).
  split; [repeat split; assumption|].
  exact (acid_root_above_neutral 1 2 3 2 H1 H2 H3 H2 P).
Defined.

Lemma polyval_poly c ka x : polyval (poly c ka) x = x ^ 2 + ka * x - ka * c.
Proof. unfold polyval, poly; simpl; ring. Qed.

Lemma approximate_root_bounds c ka :
  0 < c -> 0 < ka ->
  0 < (- ka + sqrt (ka ^ 2 + 4 * ka * c)) / 2 /\
  (- ka + sqrt (ka ^ 2 + 4 * ka * c)) / 2 < c.
Proof.
  intros Hc Hka.
  assert (Hd : 0 <= ka ^ 2 + 4 * ka * c) by nra.
  pose proof (quadratic_root c ka Hd) as Hq.
  pose proof (sqrt_sqrt _ Hd) as Hs.
  pose proof (sqrt_pos (ka ^ 2 + 4 * ka * c)) as Hp.
  set (s := sqrt (ka ^ 2 + 4 * ka * c)) in *.
  assert (Hka_s : ka < s).
  { destruct (Rlt_dec ka s) as [H|H]; [exact H|exfalso].
    assert (s * s <= ka * ka) by (apply Rmult_le_compat; lra). nra. }
  split; [lra|].
  set (x := (- ka + s) / 2) in *.
  assert (Hx : 0 < x) by (unfold x; lra).
  assert (0 < ka * (c - x)) by nra.
  nra.
Qed.

(** X5: in exact arithmetic and for positive constants the number
    (-Ka + sqrt(Ka^2 + 4 Ka [HA]0)) / 2 of [calculate_ph_approximate] is a
    root of its quadratic, lies strictly between 0 and [HA]0, and is
    strictly below the positive root of the acid cubic of
    [calculate_ph_full]: the approximation underestimates [H+]. *)
Theorem approximate_root_below_full (c_ha_zero ka kw x : R) :
  0 < c_ha_zero -> 0 < ka -> 0 < kw -> 0 < x ->
  polyval (poly_h c_ha_zero ka kw) x = 0 ->
  let xa := (- ka + sqrt (ka ^ 2 + 4 * ka * c_ha_zero)) / 2 in
  polyval (poly c_ha_zero ka) xa = 0 /\ 0 < xa /\ xa < c_ha_zero /\ xa < x.
Proof.
  intros Hc Hka Hkw Hx Px xa.
  assert (Hd : 0 <= ka ^ 2 + 4 * ka * c_ha_zero) by nra.
  destruct (approximate_root_bounds c_ha_zero ka Hc Hka) as [Ha0 Hac].
  pose proof (quadratic_root c_ha_zero ka Hd) as Hq.
  fold xa in Ha0, Hac, Hq.
  split; [rewrite polyval_poly; exact Hq|].
  split; [exact Ha0|]. split; [exact Hac|].
  destruct (Rlt_dec xa x) as [H|H]; [exact H|exfalso].
  assert (Hge : 0 <= polyval (poly_h c_ha_zero ka kw) xa).
  { apply (acid_cubic_positive_after_root c_ha_zero ka kw x xa); auto; lra. }
  rewrite polyval_poly_h in Hge.
  assert (E : xa ^ 3 + ka * xa ^ 2 - (kw + ka * c_ha_zero) * xa - ka * kw
              = xa * (xa ^ 2 + ka * xa - ka * c_ha_zero) - kw * (xa + ka))
    by ring.
  rewrite E, Hq in Hge.
  assert (0 < kw * (xa + ka)) by (apply Rmult_lt_0_compat; lra).
  lra.
Qed.

Lemma approximate_root_below_full_witness :
  (0 < 1 /\ 0 < 2 /\ 0 < 3 /\ 0 < 2 /\ polyval (poly_h 1 2 3) 2 = 0) /\
  polyval (poly 1 2) ((- 2 + sqrt (2 ^ 2 + 4 * 2 * 1)) / 2) = 0 /\
  0 < (- 2 + sqrt (2 ^ 2 + 4 * 2 * 1)) / 2 /\
  (- 2 + sqrt (2 ^ 2 + 4 * 2 * 1)) / 2 < 1 /\
  (- 2 + sqrt (2 ^ 2 + 4 * 2 * 1)) / 2 < 2.
Proof.
  assert (H1 : 0 < 1) by lra.
  assert (H2 : 0 < 2) by lra.
  assert (H3 : 0 < 3) by lra.
  assert (P : polyval (poly_h 1 2 3) 2 = 0) by (rewrite polyval_poly_h; lra).
  split; [repeat split; assumption|].
  exact (approximate_root_below_full 1 2 3 2 H1 H2 H3 H2 P).
Defined.

End SolverExtras.

(** ** The pH solver: when the root finder gives nothing to select *)

Section RootFinderFailures.
Local Open Scope float_scope.

Variable np_log10 : float -> float.
Variable np_roots : list float -> exn + ndarray.
Variable np_errstate : ufunc -> list float -> list fp_error.
Variable complex_roots_h complex_roots_oh
  : scalar -> float -> float -> float -> list (float * float) -> M number.

(** X15: [calculate_ph_full] catches nothing.  An exception of numpy.roots
    on the acid cubic (LinAlgError on a coefficient that overflowed) is the
    exception of the call, and an array of doubles without a positive entry
    makes the call raise IndexError; in both cases nothing else happens
    besides numpy's RuntimeWarnings. *)
Theorem calculate_ph_full_acid_failures (c_ha_zero ka kw : float) :
  (forall e : exn,
     np_roots [1; ka; - (kw + ka * c_ha_zero); - ka * kw] = inl e ->
     ends (calculate_ph_full np_log10 np_roots np_errstate
             complex_roots_h complex_roots_oh c_ha_zero ka kw) [] (inl e)) /\
  (forall roots_h : list float,
     np_roots [1; ka; - (kw + ka * c_ha_zero); - ka * kw] = inr (float64 roots_h) ->
     positive roots_h = [] ->
     ends (calculate_ph_full np_log10 np_roots np_errstate
             complex_roots_h complex_roots_oh c_ha_zero ka kw) [] (inl IndexError)).
Proof.
  split.
  - intros e He. unfold calculate_ph_full. apply ends_vectorize_raise.
    apply calculate_ph_full_raises, He.
  - intros roots_h Hroots Hsel. unfold calculate_ph_full. apply ends_vectorize_raise.
    eapply calculate_ph_full_acid_empty; eassumption.
Qed.

End RootFinderFailures.

Local Open Scope float_scope.

Lemma calculate_ph_full_acid_failures_witness :
  (roots_table [] [1; 1e200; - (1e-14 + 1e200 * 1e200); - 1e200 * 1e-14]
   = inl LinAlgError /\
   roots_negative [1; 6; - (-1 + 6 * -1.6666666666666667); - 6 * -1]
   = inr (float64 [-3; -2; -1]) /\
   positive [-3; -2; -1] = []) /\
  ends (calculate_ph_full log10_table (roots_table []) ieee_errors
          no_complex_roots no_complex_roots 1e200 1e200 1e-14) []
    (inl LinAlgError) /\
  ends (calculate_ph_full log10_table roots_negative ieee_errors
          no_complex_roots no_complex_roots (-1.6666666666666667) 6 (-1)) []
    (inl IndexError).
Proof.
  assert (H1 : roots_table [] [1; 1e200; - (1e-14 + 1e200 * 1e200); - 1e200 * 1e-14]
               = inl LinAlgError) by (vm_compute; reflexivity).
  assert (H2 : roots_negative [1; 6; - (-1 + 6 * -1.6666666666666667); - 6 * -1]
               = inr (float64 [-3; -2; -1])) by (vm_compute; reflexivity).
  assert (H3 : positive [-3; -2; -1] = []) by (vm_compute; reflexivity).
  split; [repeat split; assumption|].
  split.
  - exact (proj1 (calculate_ph_full_acid_failures log10_table (roots_table [])
                    ieee_errors no_complex_roots no_complex_roots 1e200 1e200 1e-14)
             LinAlgError H1).
  - exact (proj2 (calculate_ph_full_acid_failures log10_table roots_negative
                    ieee_errors no_complex_roots no_complex_roots
                    (-1.6666666666666667) 6 (-1)) _ H2 H3).
Defined.

Local Close Scope float_scope.

(** ** The pH solver: the two checks *)

Section CheckExtras.
Local Open Scope float_scope.



End CheckExtras.

Local Open Scope float_scope.


(** The base check at the two roots of the worked example, and a zero
    [HA] in the acid check: numpy reports the division by zero, and the
    message of the third test carries the infinite quotient. *)
Example check_solution_examples :
  check_solution_base ieee_errors PythonFloat 1 2 3 1.5 true empty_world
  = (empty_world, inr 0%nat) /\
  warned (fst (check_solution_base ieee_errors PythonFloat 1 2 3 1.5001 true
                 empty_world))
  = [Inconsistent 1 (1.5001 * (1 - (3 / 1.5001 - 1.5001)) / (3 / 1.5001 - 1.5001))
       (3 / 2)] /\
  check_solution_acid ieee_errors 1 2 0 1 true empty_world
  = ({| files := ∅; remote := fun _ => None; requests := []; stdout := [];
        warned := [RuntimeWarning divide_by_zero TrueDivide;
                   Inconsistent 1 infinity 2] |},
     inr 1%nat) /\
  snd (check_solution_base ieee_errors PythonFloat 1 0 3 1.5 true empty_world)
  = inl ZeroDivisionError.
Proof. vm_compute. repeat split; reflexivity. Qed.

Local Close Scope float_scope.

(** ** The fingerprint notebook: colours and environments *)

(** One pass of the colour loop: the atom gets its class colour, or the
    lookup of an atom out of range raises. *)
Lemma atom_colors_step (molecule : Mol) (centers : option (gset nat))
    (colors : gmap nat color) (atom : nat) (w : World) :
  (if match centers with
      | Some cs => bool_decide (atom ∈ cs)
      | None => false
      end
   then ret (<[atom := COLOR_MAP Center_atom]> colors)
   else
     do a <- GetAtomWithIdx molecule atom ;;
     if GetIsAromatic a
     then ret (<[atom := COLOR_MAP Aromatic_atom]> colors)
     else
       do a <- GetAtomWithIdx molecule atom ;;
       if IsInRing a
       then ret (<[atom := COLOR_MAP Atom_in_a_ring]> colors)
       else ret (<[atom := COLOR_MAP Other_atoms]> colors)) w
  = match atom_class_color molecule centers atom with
    | Some c => (w, inr (<[atom := c]> colors))
    | None => (w, inl RuntimeError)
    end.
Proof.
  unfold atom_class_color, is_center.
  destruct (match centers with
            | Some cs => bool_decide (atom ∈ cs)
            | None => false
            end); [reflexivity|].
  unfold bind, GetAtomWithIdx.
  destruct (mol_atoms molecule !! atom) as [a|]; [|reflexivity].
  unfold ret at 1. destruct (GetIsAromatic a); [reflexivity|].
  unfold ret at 1. destruct (IsInRing a); reflexivity.
Qed.

Lemma atom_colors_loop (molecule : Mol) (centers : option (gset nat))
    (atoms : list nat) :
  forall (colors0 : gmap nat color) (w : World),
    for_each atoms
      (fun colors atom =>
         if match centers with
            | Some cs => bool_decide (atom ∈ cs)
            | None => false
            end
         then ret (<[atom := COLOR_MAP Center_atom]> colors)
         else
           do a <- GetAtomWithIdx molecule atom ;;
           if GetIsAromatic a
           then ret (<[atom := COLOR_MAP Aromatic_atom]> colors)
           else
             do a <- GetAtomWithIdx molecule atom ;;
             if IsInRing a
             then ret (<[atom := COLOR_MAP Atom_in_a_ring]> colors)
             else ret (<[atom := COLOR_MAP Other_atoms]> colors))
      colors0 w
    = if bool_decide (Forall (fun a => is_Some (atom_class_color molecule centers a))
                        atoms)
      then (w, inr (foldl (fun colors a =>
                             match atom_class_color molecule centers a with
                             | Some c => <[a := c]> colors
                             | None => colors
                             end) colors0 atoms))
      else (w, inl RuntimeError).
Proof.
  induction atoms as [|atom atoms IH]; intros colors0 w.
  - reflexivity.
  - cbn [for_each]. unfold bind at 1. rewrite atom_colors_step.
    destruct (atom_class_color molecule centers atom) as [c|] eqn:Hc.
    + rewrite IH. cbn [foldl]. rewrite Hc.
      destruct (bool_decide (Forall _ atoms)) eqn:E.
      * apply bool_decide_eq_true in E.
        rewrite bool_decide_eq_true_2; [reflexivity|].
        constructor; [rewrite Hc; eauto | exact E].
      * apply bool_decide_eq_false in E.
        rewrite bool_decide_eq_false_2; [reflexivity|].
        intros H; apply E. inversion H; assumption.
    + rewrite bool_decide_eq_false_2; [reflexivity|].
      intros H. inversion H as [|? ? Hs _]; subst.
      rewrite Hc in Hs. destruct Hs; discriminate.
Qed.

Lemma class_fold_lookup (molecule : Mol) (centers : option (gset nat))
    (atoms : list nat) :
  forall (colors0 : gmap nat color) (a : nat),
    foldl (fun colors a =>
             match atom_class_color molecule centers a with
             | Some c => <[a := c]> colors
             | None => colors
             end) colors0 atoms !! a
    = if bool_decide (a ∈ atoms)
      then match atom_class_color molecule centers a with
           | Some c => Some c
           | None => colors0 !! a
           end
      else colors0 !! a.
Proof.
  induction atoms as [|atom atoms IH]; intros colors0 a.
  - reflexivity.
  - cbn [foldl]. rewrite IH.
    destruct (decide (a ∈ atoms)) as [Hin|Hin].
    + rewrite !bool_decide_eq_true_2 by set_solver.
      destruct (atom_class_color molecule centers a) eqn:Ha; [reflexivity|].
      destruct (atom_class_color molecule centers atom) eqn:Hat; [|reflexivity].
      rewrite lookup_insert_ne; [reflexivity|]. intros ->; congruence.
    + rewrite (bool_decide_eq_false_2 (a ∈ atoms)) by exact Hin.
      destruct (decide (a = atom)) as [->|Hne].
      * rewrite bool_decide_eq_true_2 by set_solver.
        destruct (atom_class_color molecule centers atom); [|reflexivity].
        apply lookup_insert_eq.
      * rewrite bool_decide_eq_false_2 by set_solver.
        destruct (atom_class_color molecule centers atom); [|reflexivity].
        apply lookup_insert_ne; congruence.
Qed.

Lemma get_atom_colors_run (molecule : Mol) (atoms : list nat)
    (centers : option (gset nat)) (w : World) :
  get_atom_colors molecule atoms centers w
  = if bool_decide (Forall (fun a => is_Some (atom_class_color molecule centers a))
                      atoms)
    then (w, inr (foldl (fun colors a =>
                           match atom_class_color molecule centers a with
                           | Some c => <[a := c]> colors
                           | None => colors
                           end) ∅ atoms))
    else (w, inl RuntimeError).
Proof. unfold get_atom_colors. apply atom_colors_loop. Qed.

Lemma atom_class_color_is_Some (molecule : Mol) (centers : option (gset nat))
    (a : nat) :
  is_Some (atom_class_color molecule centers a)
  <-> is_center centers a = true \/ a < length (mol_atoms molecule).
Proof.
  unfold atom_class_color. destruct (is_center centers a).
  - split; [auto | eauto].
  - split.
    + intros [c Hc]. right.
      destruct (mol_atoms molecule !! a) eqn:E; [|discriminate].
      eapply lookup_lt_Some; exact E.
    + intros [H|H]; [discriminate|].
      apply lookup_lt_is_Some in H. destruct H as [x ->]. eauto.
Qed.

(** X8: when [get_atom_colors] returns, the dictionary has exactly the
    listed atoms as keys and gives each its class colour: the centre colour
    for a centre (whatever the atom is), otherwise aromatic before ring
    before other; the world is unchanged. *)
Theorem get_atom_colors_by_class
    (molecule : Mol) (atoms : list nat) (centers : option (gset nat))
    (w w' : World) (colors : gmap nat color) :
  get_atom_colors molecule atoms centers w = (w', inr colors) ->
  w' = w /\
  forall a : nat,
    colors !! a
    = if bool_decide (a ∈ atoms)
      then atom_class_color molecule centers a
      else None.
Proof.
  rewrite get_atom_colors_run.
  destruct (bool_decide (Forall _ atoms)) eqn:E; [|discriminate].
  apply bool_decide_eq_true in E.
  intros H; inversion H; subst; clear H. split; [reflexivity|].
  intros a. rewrite class_fold_lookup.
  destruct (bool_decide (a ∈ atoms)) eqn:Ha; [|apply lookup_empty].
  apply bool_decide_eq_true in Ha.
  rewrite Forall_forall in E. destruct (E a Ha) as [c ->]. reflexivity.
Qed.

Lemma get_atom_colors_by_class_witness :
  get_atom_colors chain3 [0; 1; 2] (Some {[1]}) empty_world
  = (empty_world,
     inr {[ 0 := COLOR_MAP Other_atoms; 1 := COLOR_MAP Center_atom;
            2 := COLOR_MAP Atom_in_a_ring ]}) /\
  forall a : nat,
    ({[ 0 := COLOR_MAP Other_atoms; 1 := COLOR_MAP Center_atom;
        2 := COLOR_MAP Atom_in_a_ring ]} : gmap nat color) !! a
    = if bool_decide (a ∈ [0; 1; 2])
      then atom_class_color chain3 (Some {[1]}) a
      else None.
Proof.
  assert (Hrun : get_atom_colors chain3 [0; 1; 2] (Some {[1]}) empty_world
    = (empty_world,
       inr {[ 0 := COLOR_MAP Other_atoms; 1 := COLOR_MAP Center_atom;
              2 := COLOR_MAP Atom_in_a_ring ]}))
    by (vm_compute; reflexivity).
  split; [exact Hrun|].
  exact (proj2 (get_atom_colors_by_class chain3 [0; 1; 2] (Some {[1]})
                  empty_world empty_world _ Hrun)).
Defined.

(** X9: [get_atom_colors] returns exactly when every listed atom is a
    centre or has an index in range, and raises RuntimeError (RDKit's range
    error) otherwise; centres are never looked up, and the world is
    unchanged either way. *)
Theorem get_atom_colors_raises_iff
    (molecule : Mol) (atoms : list nat) (centers : option (gset nat))
    (w : World) :
  ((forall a, a ∈ atoms ->
      is_center centers a = true \/ a < length (mol_atoms molecule)) ->
   exists colors, get_atom_colors molecule atoms centers w = (w, inr colors)) /\
  ((exists a, a ∈ atoms /\ is_center centers a = false /\
              length (mol_atoms molecule) <= a) ->
   get_atom_colors molecule atoms centers w = (w, inl RuntimeError)).
Proof.
  rewrite get_atom_colors_run. split.
  - intros H. rewrite bool_decide_eq_true_2; [eauto|].
    apply Forall_forall. intros a Ha. apply atom_class_color_is_Some; auto.
  - intros (a & Ha & Hc & Hlen). rewrite bool_decide_eq_false_2; [reflexivity|].
    rewrite Forall_forall. intros H.
    destruct (proj1 (atom_class_color_is_Some molecule centers a) (H a Ha))
      as [H1|H1]; [congruence | lia].
Qed.

Lemma get_bond_colors_lookup (bonds : list nat) (b : nat) :
  get_bond_colors bonds !! b
  = if bool_decide (b ∈ bonds) then Some (COLOR_MAP Bonds) else None.
Proof.
  unfold get_bond_colors.
  assert (H : forall colors0 : gmap nat color,
            foldl (fun colors bond => <[bond := COLOR_MAP Bonds]> colors)
              colors0 bonds !! b
            = if bool_decide (b ∈ bonds) then Some (COLOR_MAP Bonds)
              else colors0 !! b).
  { induction bonds as [|x bonds IH]; intros colors0; [reflexivity|].
    cbn [foldl]. rewrite IH.
    destruct (decide (b ∈ bonds)) as [Hin|Hin].
    - rewrite !bool_decide_eq_true_2 by set_solver. reflexivity.
    - rewrite (bool_decide_eq_false_2 (b ∈ bonds)) by exact Hin.
      destruct (decide (b = x)) as [->|Hne].
      + rewrite bool_decide_eq_true_2 by set_solver. apply lookup_insert_eq.
      + rewrite bool_decide_eq_false_2 by set_solver.
        apply lookup_insert_ne; congruence. }
  rewrite H. destruct (bool_decide (b ∈ bonds)); [reflexivity | apply lookup_empty].
Qed.

(** X10: [get_bond_colors] maps every listed bond, and nothing else, to the
    one bond colour, which is the colour of the "other" atoms. *)
Theorem get_bond_colors_uniform (bonds : list nat) :
  (forall b : nat,
     get_bond_colors bonds !! b
     = if bool_decide (b ∈ bonds) then Some (COLOR_MAP Other_atoms) else None) /\
  dom (get_bond_colors bonds) = list_to_set bonds.
Proof.
  split; [intros b; apply get_bond_colors_lookup | apply bond_colors_dom].
Qed.

(** The bond loop again, exactly: the atoms it ends with are the ones it
    started with and the two ends of every bond of [env], nothing else; it
    leaves the world alone, and it raises exactly when some bond index is
    out of range. *)
Lemma bond_loop_exact (molecule : Mol) (env : list nat) :
  forall (atoms0 bonds0 : gset nat) (w : World),
    for_each env
      (fun '(atoms, bonds) bond =>
         do b <- GetBondWithIdx molecule bond ;;
         let atoms := atoms ∪ {[GetBeginAtomIdx b]} in
         do b <- GetBondWithIdx molecule bond ;;
         let atoms := atoms ∪ {[GetEndAtomIdx b]} in
         let bonds := bonds ∪ {[bond]} in
         ret (atoms, bonds))
      (atoms0, bonds0) w
    = if bool_decide (Forall (fun b => b < length (mol_bonds molecule)) env)
      then (w, inr (foldl (fun atoms bond =>
                             match mol_bonds molecule !! bond with
                             | Some b => atoms ∪ {[GetBeginAtomIdx b]}
                                               ∪ {[GetEndAtomIdx b]}
                             | None => atoms
                             end) atoms0 env,
                    bonds0 ∪ list_to_set env))
      else (w, inl RuntimeError).
Proof.
  induction env as [|bond env IH]; intros atoms0 bonds0 w.
  - cbn. unfold ret. do 2 f_equal. f_equal. set_solver.
  - cbn [for_each foldl]. unfold bind at 1. unfold bind at 1.
    unfold GetBondWithIdx at 1.
    destruct (mol_bonds molecule !! bond) as [b|] eqn:Hb.
    + unfold ret at 1. unfold bind at 1. unfold GetBondWithIdx at 1.
      rewrite Hb. unfold ret at 1 2. rewrite IH.
      assert (Hlt : bond < length (mol_bonds molecule))
        by (eapply lookup_lt_Some; exact Hb).
      destruct (bool_decide (Forall _ env)) eqn:E.
      * apply bool_decide_eq_true in E.
        rewrite bool_decide_eq_true_2 by (constructor; assumption).
        do 2 f_equal. f_equal. set_solver.
      * apply bool_decide_eq_false in E.
        rewrite bool_decide_eq_false_2; [reflexivity|].
        intros H; apply E; inversion H; assumption.
    + unfold raise. rewrite bool_decide_eq_false_2; [reflexivity|].
      intros H; inversion H as [|? ? Hlt _]; subst.
      apply lookup_lt_is_Some in Hlt. rewrite Hb in Hlt. destruct Hlt; discriminate.
Qed.

Lemma endpoint_fold_elem (molecule : Mol) (env : list nat) :
  forall (atoms0 : gset nat) (a : nat),
    a ∈ foldl (fun atoms bond =>
                 match mol_bonds molecule !! bond with
                 | Some b => atoms ∪ {[GetBeginAtomIdx b]} ∪ {[GetEndAtomIdx b]}
                 | None => atoms
                 end) atoms0 env
    <-> a ∈ atoms0 \/
        exists bond b, bond ∈ env /\ mol_bonds molecule !! bond = Some b /\
                       (a = GetBeginAtomIdx b \/ a = GetEndAtomIdx b).
Proof.
  induction env as [|bond env IH]; intros atoms0 a; cbn [foldl].
  - split; [auto|]. intros [H|(bond & b & Hin & _)]; [exact H|]. inversion Hin.
  - rewrite IH. split.
    + intros [H|(bond' & b & Hin & Hb & Ha)].
      * destruct (mol_bonds molecule !! bond) as [b|] eqn:Hb; [|auto].
        apply elem_of_union in H. destruct H as [H|H].
        -- apply elem_of_union in H. destruct H as [H|H]; [auto|].
           apply elem_of_singleton in H. right. exists bond, b.
           split; [set_solver|]. auto.
        -- apply elem_of_singleton in H. right. exists bond, b.
           split; [set_solver|]. auto.
      * right. exists bond', b. split; [set_solver|]. auto.
    + intros [H|(bond' & b & Hin & Hb & Ha)].
      * left. destruct (mol_bonds molecule !! bond); set_solver.
      * apply elem_of_cons in Hin. destruct Hin as [->|Hin].
        -- left. rewrite Hb. destruct Ha as [->| ->]; set_solver.
        -- right. exists bond', b. auto.
Qed.

(** The steps of [get_environment], in the order they run. *)
Lemma get_environment_run
    (FindAtomEnvironmentOfRadiusN : Mol -> nat -> nat -> exn + list nat)
    (molecule : Mol) (center radius : nat) (w : World) :
  get_environment FindAtomEnvironmentOfRadiusN molecule center radius w
  = match (if (GetNumConformers molecule =? 0)%nat
           then rdDepictor_Compute2DCoords_mol else ret tt) w with
    | (w1, inl e) => (w1, inl e)
    | (w1, inr _) =>
        match FindAtomEnvironmentOfRadiusN molecule radius center with
        | inl e => (w1, inl e)
        | inr env =>
            if bool_decide (Forall (fun b => b < length (mol_bonds molecule)) env)
            then
              let atoms :=
                elements (foldl (fun atoms bond =>
                                   match mol_bonds molecule !! bond with
                                   | Some b => atoms ∪ {[GetBeginAtomIdx b]}
                                                     ∪ {[GetEndAtomIdx b]}
                                   | None => atoms
                                   end) ({[center]} : gset nat) env) in
              let bonds := elements (∅ ∪ list_to_set env : gset nat) in
              match get_atom_colors molecule atoms (Some {[center]}) w1 with
              | (w2, inl e) => (w2, inl e)
              | (w2, inr atom_colors) =>
                  (w2, inr (atoms, bonds, atom_colors, get_bond_colors bonds))
              end
            else (w1, inl RuntimeError)
        end
    end.
Proof.
  unfold get_environment. unfold bind at 1.
  destruct ((if (GetNumConformers molecule =? 0)%nat
             then rdDepictor_Compute2DCoords_mol else ret tt) w)
    as [w1 [e|[]]]; [reflexivity|].
  unfold bind at 1. unfold lift.
  destruct (FindAtomEnvironmentOfRadiusN molecule radius center) as [e|env];
    [reflexivity|].
  unfold bind at 1. rewrite bond_loop_exact.
  destruct (bool_decide (Forall _ env)); [|reflexivity].
  cbn [fst snd]. unfold bind at 1.
  destruct (get_atom_colors molecule _ (Some {[center]}) w1) as [w2 [e|colors]];
    reflexivity.
Qed.

(** X11: when [get_environment] returns, the bonds are exactly the bonds
    of the RDKit environment and the atoms exactly the centre and the ends
    of those bonds, each listed once. *)
Theorem get_environment_exact_content
    (FindAtomEnvironmentOfRadiusN : Mol -> nat -> nat -> exn + list nat)
    (molecule : Mol) (center radius : nat) (w w' : World)
    (atoms bonds : list nat) (atom_colors bond_colors : gmap nat color) :
  get_environment FindAtomEnvironmentOfRadiusN molecule center radius w
  = (w', inr (atoms, bonds, atom_colors, bond_colors)) ->
  exists env,
    FindAtomEnvironmentOfRadiusN molecule radius center = inr env /\
    NoDup atoms /\ NoDup bonds /\
    (forall bond, bond ∈ bonds <-> bond ∈ env) /\
    (forall a, a ∈ atoms <->
       a = center \/
       exists bond b, bond ∈ bonds /\ mol_bonds molecule !! bond = Some b /\
                      (a = GetBeginAtomIdx b \/ a = GetEndAtomIdx b)).
Proof.
  rewrite get_environment_run.
  destruct ((if (GetNumConformers molecule =? 0)%nat
             then rdDepictor_Compute2DCoords_mol else ret tt) w)
    as [w1 [e|[]]]; [discriminate|].
  destruct (FindAtomEnvironmentOfRadiusN molecule radius center) as [e|env];
    [discriminate|].
  destruct (bool_decide (Forall _ env)); [|discriminate].
  cbv zeta.
  destruct (get_atom_colors molecule _ (Some {[center]}) w1) as [w2 [e|colors]];
    [discriminate|].
  intros H; inversion H; subst; clear H.
  exists env. split; [reflexivity|].
  split; [apply NoDup_elements|]. split; [apply NoDup_elements|].
  assert (Hb : forall bond, bond ∈ elements (∅ ∪ list_to_set env : gset nat)
                            <-> bond ∈ env).
  { intros bond. rewrite elem_of_elements. set_solver. }
  split; [exact Hb|].
  intros a. rewrite elem_of_elements, endpoint_fold_elem, elem_of_singleton.
  split; (intros [Hc|(bond & b & Hin & Hrest)]; [left; exact Hc|]);
    right; exists bond, b; (split; [apply Hb; exact Hin | exact Hrest]).
Qed.

Lemma get_environment_exact_content_witness :
  get_environment chain3_env chain3 1 1 empty_world
  = (empty_world,
     inr ([2; 1; 0], [1; 0],
          {[ 0 := COLOR_MAP Other_atoms; 1 := COLOR_MAP Center_atom;
             2 := COLOR_MAP Atom_in_a_ring ]},
          {[ 0 := COLOR_MAP Bonds; 1 := COLOR_MAP Bonds ]})) /\
  exists env,
    chain3_env chain3 1 1 = inr env /\
    NoDup [2; 1; 0] /\ NoDup [1; 0] /\
    (forall bond, bond ∈ [1; 0] <-> bond ∈ env) /\
    (forall a, a ∈ [2; 1; 0] <->
       a = 1 \/
       exists bond b, bond ∈ [1; 0] /\ mol_bonds chain3 !! bond = Some b /\
                      (a = GetBeginAtomIdx b \/ a = GetEndAtomIdx b)).
Proof.
  assert (Hrun : get_environment chain3_env chain3 1 1 empty_world
    = (empty_world,
       inr ([2; 1; 0], [1; 0],
            {[ 0 := COLOR_MAP Other_atoms; 1 := COLOR_MAP Center_atom;
               2 := COLOR_MAP Atom_in_a_ring ]},
            {[ 0 := COLOR_MAP Bonds; 1 := COLOR_MAP Bonds ]})))
    by (vm_compute; reflexivity).
  split; [exact Hrun|].
  exact (get_environment_exact_content chain3_env chain3 1 1 _ _ _ _ _ _ Hrun).
Defined.

(** X12: when [get_environment] returns, the centre atom has the centre
    colour, every other returned atom the colour of its own class
    (aromatic before ring before other), and every returned bond the bond
    colour. *)
Theorem get_environment_colors
    (FindAtomEnvironmentOfRadiusN : Mol -> nat -> nat -> exn + list nat)
    (molecule : Mol) (center radius : nat) (w w' : World)
    (atoms bonds : list nat) (atom_colors bond_colors : gmap nat color) :
  get_environment FindAtomEnvironmentOfRadiusN molecule center radius w
  = (w', inr (atoms, bonds, atom_colors, bond_colors)) ->
  atom_colors !! center = Some (COLOR_MAP Center_atom) /\
  (forall a, a ∈ atoms -> a <> center ->
     exists atom,
       mol_atoms molecule !! a = Some atom /\
       atom_colors !! a
       = Some (if GetIsAromatic atom then COLOR_MAP Aromatic_atom
               else if IsInRing atom then COLOR_MAP Atom_in_a_ring
               else COLOR_MAP Other_atoms)) /\
  (forall bond, bond ∈ bonds -> bond_colors !! bond = Some (COLOR_MAP Bonds)).
Proof.
  rewrite get_environment_run.
  destruct ((if (GetNumConformers molecule =? 0)%nat
             then rdDepictor_Compute2DCoords_mol else ret tt) w)
    as [w1 [e|[]]]; [discriminate|].
  destruct (FindAtomEnvironmentOfRadiusN molecule radius center) as [e|env];
    [discriminate|].
  destruct (bool_decide (Forall _ env)); [|discriminate].
  cbv zeta. rewrite get_atom_colors_run.
  destruct (bool_decide (Forall _ _)) eqn:E; [|discriminate].
  apply bool_decide_eq_true in E. rewrite Forall_forall in E.
  intros H; inversion H; subst; clear H.
  assert (Hcenter : center ∈ elements
            (foldl (fun atoms bond =>
                      match mol_bonds molecule !! bond with
                      | Some b => atoms ∪ {[GetBeginAtomIdx b]}
                                        ∪ {[GetEndAtomIdx b]}
                      | None => atoms
                      end) ({[center]} : gset nat) env)).
  { apply elem_of_elements, endpoint_fold_elem. left. set_solver. }
  split; [|split].
  - rewrite class_fold_lookup, bool_decide_eq_true_2 by exact Hcenter.
    unfold atom_class_color, is_center.
    rewrite bool_decide_eq_true_2 by set_solver. reflexivity.
  - intros a Ha Hne.
    rewrite class_fold_lookup, bool_decide_eq_true_2 by exact Ha.
    destruct (E a Ha) as [c Hc]. revert Hc.
    unfold atom_class_color, is_center.
    rewrite bool_decide_eq_false_2 by set_solver.
    destruct (mol_atoms molecule !! a) as [atom|]; [|discriminate].
    intros _. exists atom. split; reflexivity.
  - intros bond Hb. rewrite get_bond_colors_lookup.
    rewrite bool_decide_eq_true_2 by exact Hb. reflexivity.
Qed.

Lemma get_environment_colors_witness :
  get_environment chain3_env chain3 1 1 empty_world
  = (empty_world,
     inr ([2; 1; 0], [1; 0],
          {[ 0 := COLOR_MAP Other_atoms; 1 := COLOR_MAP Center_atom;
             2 := COLOR_MAP Atom_in_a_ring ]},
          {[ 0 := COLOR_MAP Bonds; 1 := COLOR_MAP Bonds ]})) /\
  ({[ 0 := COLOR_MAP Other_atoms; 1 := COLOR_MAP Center_atom;
      2 := COLOR_MAP Atom_in_a_ring ]} : gmap nat color) !! 1
  = Some (COLOR_MAP Center_atom).
Proof.
  assert (Hrun : get_environment chain3_env chain3 1 1 empty_world
    = (empty_world,
       inr ([2; 1; 0], [1; 0],
            {[ 0 := COLOR_MAP Other_atoms; 1 := COLOR_MAP Center_atom;
               2 := COLOR_MAP Atom_in_a_ring ]},
            {[ 0 := COLOR_MAP Bonds; 1 := COLOR_MAP Bonds ]})))
    by (vm_compute; reflexivity).
  split; [exact Hrun|].
  exact (proj1 (get_environment_colors chain3_env chain3 1 1 _ _ _ _ _ _ Hrun)).
Defined.

(** X13: [get_environment] leaves the world as it found it, whatever its
    outcome.  On a molecule without conformers it raises NameError: the
    notebook never imports [rdDepictor], so the statement
    [rdDepictor.Compute2DCoords(mol)] fails on that name before any
    coordinates are computed. *)
Theorem get_environment_without_conformers
    (FindAtomEnvironmentOfRadiusN : Mol -> nat -> nat -> exn + list nat)
    (molecule : Mol) (center radius : nat) (w : World) :
  fst (get_environment FindAtomEnvironmentOfRadiusN molecule center radius w)
  = w /\
  (GetNumConformers molecule = 0 ->
   get_environment FindAtomEnvironmentOfRadiusN molecule center radius w
   = (w, inl NameError)).
Proof.
  rewrite get_environment_run. split.
  - destruct (GetNumConformers molecule =? 0)%nat; [reflexivity|].
    unfold ret.
    destruct (FindAtomEnvironmentOfRadiusN molecule radius center) as [e|env];
      [reflexivity|].
    destruct (bool_decide (Forall _ env)); [|reflexivity].
    cbv zeta. rewrite get_atom_colors_run.
    destruct (bool_decide (Forall _ _)); reflexivity.
  - intros Hn. rewrite Hn. reflexivity.
Qed.

Lemma get_environment_without_conformers_witness :
  GetNumConformers chain3_flat = 0 /\
  fst (get_environment chain3_env chain3_flat 1 1 empty_world) = empty_world /\
  get_environment chain3_env chain3_flat 1 1 empty_world
  = (empty_world, inl NameError).
Proof.
  assert (H0 : GetNumConformers chain3_flat = 0) by reflexivity.
  split; [exact H0|].
  split.
  - exact (proj1 (get_environment_without_conformers chain3_env chain3_flat 1 1
                    empty_world)).
  - exact (proj2 (get_environment_without_conformers chain3_env chain3_flat 1 1
                    empty_world) H0).
Defined.

(** X14: [get_environment] returns, with the world unchanged, whenever the
    molecule has a conformer, RDKit returns an environment, and the bonds
    of that environment and their end atoms exist in the molecule. *)
Theorem get_environment_returns
    (FindAtomEnvironmentOfRadiusN : Mol -> nat -> nat -> exn + list nat)
    (molecule : Mol) (center radius : nat) (env : list nat) (w : World) :
  GetNumConformers molecule <> 0 ->
  FindAtomEnvironmentOfRadiusN molecule radius center = inr env ->
  (forall bond, bond ∈ env ->
     exists b, mol_bonds molecule !! bond = Some b /\
               GetBeginAtomIdx b < length (mol_atoms molecule) /\
               GetEndAtomIdx b < length (mol_atoms molecule)) ->
  exists atoms bonds atom_colors bond_colors,
    get_environment FindAtomEnvironmentOfRadiusN molecule center radius w
    = (w, inr (atoms, bonds, atom_colors, bond_colors)).
Proof.
  intros Hn Henv Hvalid.
  rewrite get_environment_run. apply Nat.eqb_neq in Hn. rewrite Hn, Henv.
  unfold ret.
  rewrite bool_decide_eq_true_2.
  2:{ apply Forall_forall. intros bond Hin.
      destruct (Hvalid bond Hin) as (b & Hb & _).
      eapply lookup_lt_Some; exact Hb. }
  cbv zeta. rewrite get_atom_colors_run.
  rewrite bool_decide_eq_true_2; [eauto 10|].
  apply Forall_forall. intros a Ha.
  apply atom_class_color_is_Some.
  apply elem_of_elements, endpoint_fold_elem in Ha.
  destruct Ha as [Ha|(bond & b & Hin & Hb & Ha)].
  - left. unfold is_center. apply bool_decide_eq_true_2. exact Ha.
  - right. destruct (Hvalid bond Hin) as (b' & Hb' & H1 & H2).
    rewrite Hb in Hb'. injection Hb' as <-. destruct Ha as [->| ->]; assumption.
Qed.

Lemma get_environment_returns_witness :
  (GetNumConformers chain3 <> 0 /\
   chain3_env chain3 1 1 = inr [0; 1] /\
   (forall bond, bond ∈ [0; 1] ->
      exists b, mol_bonds chain3 !! bond = Some b /\
                GetBeginAtomIdx b < length (mol_atoms chain3) /\
                GetEndAtomIdx b < length (mol_atoms chain3))) /\
  exists atoms bonds atom_colors bond_colors,
    get_environment chain3_env chain3 1 1 empty_world
    = (empty_world, inr (atoms, bonds, atom_colors, bond_colors)).
Proof.
  assert (H1 : GetNumConformers chain3 <> 0) by discriminate.
  assert (H2 : chain3_env chain3 1 1 = inr [0; 1]) by reflexivity.
  assert (H3 : forall bond, bond ∈ [0; 1] ->
      exists b, mol_bonds chain3 !! bond = Some b /\
                GetBeginAtomIdx b < length (mol_atoms chain3) /\
                GetEndAtomIdx b < length (mol_atoms chain3)).
  { intros bond Hin. apply elem_of_cons in Hin. destruct Hin as [->|Hin].
    - eexists; split; [reflexivity|]. simpl; lia.
    - apply elem_of_cons in Hin. destruct Hin as [->|Hin]; [|inversion Hin].
      eexists; split; [reflexivity|]. simpl; lia. }
  split; [repeat split; assumption|].
  exact (get_environment_returns chain3_env chain3 1 1 [0; 1] empty_world
           H1 H2 H3).
Defined.

(** ** The ESOL notebook: what the correlation filter leaves behind *)

Section CorrelationExtras.
Local Open Scope R_scope.

Variable pearson : list R -> list R -> option R.

(** Columns that survive a filter keep their relative order. *)
Lemma filter_lookup_order {A} (f : A -> bool) (l : list A) :
  forall (i j : nat) (a b : A),
    (i < j)%nat ->
    List.filter f l !! i = Some a -> List.filter f l !! j = Some b ->
    exists i' j', (i' < j')%nat /\ l !! i' = Some a /\ l !! j' = Some b.
Proof.
  induction l as [|x l IH]; intros i j a b Hij Hi Hj; [discriminate|].
  cbn [List.filter] in Hi, Hj. destruct (f x).
  - destruct i as [|i].
    + destruct j as [|j]; [lia|]. cbn in Hi, Hj. injection Hi as ->.
      assert (Hin : b ∈ List.filter f l) by (eapply list_elem_of_lookup_2; exact Hj).
      apply list_elem_of_In, filter_In in Hin. destruct Hin as [Hin _].
      apply list_elem_of_In, list_elem_of_lookup in Hin. destruct Hin as [j' Hj'].
      exists 0%nat, (S j'). split; [lia|]. split; [reflexivity | exact Hj'].
    + destruct j as [|j]; [lia|]. cbn in Hi, Hj.
      destruct (IH i j a b ltac:(lia) Hi Hj) as (i' & j' & Hlt & Ha & Hb).
      exists (S i'), (S j'). split; [lia|]. split; assumption.
  - destruct (IH i j a b Hij Hi Hj) as (i' & j' & Hlt & Ha & Hb).
    exists (S i'), (S j'). split; [lia|]. split; assumption.
Qed.

Lemma DataFrame_drop_NoDup (df : list Series) (labels : list string) :
  NoDup (label <$> df) -> NoDup (label <$> DataFrame_drop df labels).
Proof.
  intros Hnd. eapply sublist_NoDup; [exact Hnd|].
  apply fmap_sublist, DataFrame_drop_sublist.
Qed.

(** No pair of surviving columns is correlated above the threshold. *)
Lemma survivors_uncorrelated (df : list Series) (i j : nat) (a b : Series)
    (r : R) :
  NoDup (label <$> df) ->
  (i < j)%nat ->
  DataFrame_drop df (to_drop pearson df) !! i = Some a ->
  DataFrame_drop df (to_drop pearson df) !! j = Some b ->
  pearson (values a) (values b) = Some r ->
  Rabs r <= 975 / 1000.
Proof.
  intros Hnd Hij Hi Hj Hp.
  assert (Hb : b ∈ DataFrame_drop df (to_drop pearson df))
    by (eapply list_elem_of_lookup_2; exact Hj).
  apply DataFrame_drop_elem in Hb. destruct Hb as [_ Hkept].
  unfold DataFrame_drop in Hi, Hj.
  destruct (filter_lookup_order _ _ i j a b Hij Hi Hj) as (i' & j' & Hlt & Ha & Hb).
  destruct (Rle_dec (Rabs r) (975 / 1000)) as [H|H]; [exact H|exfalso].
  apply Hkept. apply (to_drop_iff pearson df j' b Hnd Hb).
  exists i', a, b, r. repeat split; auto. lra.
Qed.

(** X18: after the correlation filter no column is left whose absolute
    Pearson correlation with a column before it exceeds 0.975, and the
    column labels are still distinct. *)
Theorem remove_correlated_leaves_no_pair (df : list Series) :
  NoDup (label <$> df) ->
  NoDup (label <$> DataFrame_drop df (to_drop pearson df)) /\
  forall (i j : nat) (a b : Series) (r : R),
    (i < j)%nat ->
    DataFrame_drop df (to_drop pearson df) !! i = Some a ->
    DataFrame_drop df (to_drop pearson df) !! j = Some b ->
    pearson (values a) (values b) = Some r ->
    Rabs r <= 975 / 1000.
Proof.
  intros Hnd. split; [apply DataFrame_drop_NoDup; exact Hnd|].
  intros i j a b r. apply survivors_uncorrelated; exact Hnd.
Qed.

Lemma to_drop_of_survivors (df : list Series) :
  NoDup (label <$> df) ->
  to_drop pearson (DataFrame_drop df (to_drop pearson df)) = [].
Proof.
  intros Hnd.
  set (res := DataFrame_drop df (to_drop pearson df)).
  assert (Hres : NoDup (label <$> res)) by (apply DataFrame_drop_NoDup; exact Hnd).
  destruct (to_drop pearson res) as [|l ls] eqn:E; [reflexivity|exfalso].
  assert (Hl : l ∈ to_drop pearson res) by (rewrite E; left).
  assert (Hlab : l ∈ label <$> res).
  { unfold to_drop in Hl. apply list_elem_of_In, filter_In in Hl.
    destruct Hl as [Hl _]. apply list_elem_of_In; exact Hl. }
  apply list_elem_of_fmap in Hlab. destruct Hlab as (b & -> & Hb).
  apply list_elem_of_lookup in Hb. destruct Hb as [j Hj].
  apply (to_drop_iff pearson res j b Hres Hj) in Hl.
  destruct Hl as (i & a & b' & r & Hlt & Hi & Hj' & Hp & Hr).
  rewrite Hj in Hj'. injection Hj' as <-.
  pose proof (survivors_uncorrelated df i j a b r Hnd Hlt Hi Hj Hp). lra.
Qed.

(** X19: the correlation filter is idempotent: run on its own result it
    finds nothing to drop, prints nothing and returns the frame as it
    is. *)
Theorem remove_correlated_idempotent (df : list Series) (w : World) :
  NoDup (label <$> df) ->
  to_drop pearson (DataFrame_drop df (to_drop pearson df)) = [] /\
  remove_correlated pearson (DataFrame_drop df (to_drop pearson df)) w
  = (w, inr (DataFrame_drop df (to_drop pearson df))).
Proof.
  intros Hnd. pose proof (to_drop_of_survivors df Hnd) as E.
  split; [exact E|]. unfold remove_correlated. rewrite E. reflexivity.
Qed.

(** X20: the first column is never dropped: it stays the first column of
    the result. *)
Theorem remove_correlated_keeps_first (df : list Series) (b : Series) :
  NoDup (label <$> df) ->
  df !! 0%nat = Some b ->
  DataFrame_drop df (to_drop pearson df) !! 0%nat = Some b.
Proof.
  intros Hnd H0.
  assert (Hkept : label b ∉ to_drop pearson df).
  { intros Hin. apply (to_drop_iff pearson df 0 b Hnd H0) in Hin.
    destruct Hin as (i & _ & _ & _ & Hlt & _). lia. }
  destruct df as [|x df]; [discriminate|]. cbn in H0. injection H0 as ->.
  unfold DataFrame_drop. cbn [List.filter].
  rewrite bool_decide_eq_false_2 by exact Hkept. reflexivity.
Qed.

End CorrelationExtras.

Lemma remove_correlated_leaves_no_pair_witness :
  NoDup (label <$> three_columns) /\
  NoDup (label <$> DataFrame_drop three_columns
                     (to_drop pearson_of_three three_columns)).
Proof.
  split; [exact three_columns_NoDup|].
  exact (proj1 (remove_correlated_leaves_no_pair pearson_of_three three_columns
                  three_columns_NoDup)).
Defined.

Lemma remove_correlated_idempotent_witness :
  NoDup (label <$> three_columns) /\
  to_drop pearson_of_three
    (DataFrame_drop three_columns (to_drop pearson_of_three three_columns)) = [].
Proof.
  split; [exact three_columns_NoDup|].
  exact (proj1 (remove_correlated_idempotent pearson_of_three three_columns
                  empty_world three_columns_NoDup)).
Defined.

Lemma remove_correlated_keeps_first_witness :
  (NoDup (label <$> three_columns) /\
   three_columns !! 0%nat
   = Some {| label := "MolWt"; values := [1; 2; 3]%R |}) /\
  DataFrame_drop three_columns (to_drop pearson_of_three three_columns) !! 0%nat
  = Some {| label := "MolWt"; values := [1; 2; 3]%R |}.
Proof.
  split; [split; [exact three_columns_NoDup | reflexivity]|].
  exact (remove_correlated_keeps_first pearson_of_three three_columns _
           three_columns_NoDup eq_refl).
Defined.

(** ** The molecular-orbital notebook: HOMO and LUMO *)

Section FrontierOrbitals.
Local Open Scope R_scope.

Lemma lookup_snoc_inv {A} (l : list A) (x y : A) (j : nat) :
  (l ++ [x]) !! j = Some y ->
  ((j < length l)%nat /\ l !! j = Some y) \/ (j = length l /\ y = x).
Proof.
  intros H. destruct (Nat.lt_ge_cases j (length l)) as [Hlt|Hge].
  - left. split; [exact Hlt|]. rewrite lookup_app_l in H; assumption.
  - right. rewrite lookup_app_r in H by exact Hge.
    destruct (j - length l)%nat as [|k] eqn:E; [|destruct k; discriminate].
    cbn in H. injection H as <-. split; [lia | reflexivity].
Qed.

Lemma homo_found_step seen homo homo_idx energy occ :
  homo_found seen homo homo_idx ->
  homo_found (seen ++ [(energy, occ)])
    (fst (if (if Rlt_dec 0 occ then true else false) && above energy homo
          then (Finite energy, Some (length seen)) else (homo, homo_idx)))
    (snd (if (if Rlt_dec 0 occ then true else false) && above energy homo
          then (Finite energy, Some (length seen)) else (homo, homo_idx))).
Proof.
  intros H.
  destruct (Rlt_dec 0 occ) as [Hocc|Hocc]; cbn [andb].
  - destruct homo_idx as [i|]; cbn [homo_found] in H.
    + destruct H as (e0 & o0 & Hi & Ho0 & -> & Hmax). cbn [above].
      destruct (Rlt_dec e0 energy) as [Hlt|Hge]; cbn [fst snd homo_found].
      * exists energy, occ. split; [apply list_lookup_middle; reflexivity|].
        split; [exact Hocc|]. split; [reflexivity|].
        intros j e o Hj Ho. apply lookup_snoc_inv in Hj.
        destruct Hj as [[Hjl Hj]|[-> E]].
        -- destruct (Hmax j e o Hj Ho) as [Hle _]. split; [lra | intros _; lra].
        -- injection E as -> ->. split; [lra | lia].
      * exists e0, o0.
        split; [rewrite lookup_app_l; [exact Hi | eapply lookup_lt_Some; exact Hi]|].
        split; [exact Ho0|]. split; [reflexivity|].
        intros j e o Hj Ho. apply lookup_snoc_inv in Hj.
        destruct Hj as [[Hjl Hj]|[-> E]]; [apply (Hmax j e o Hj Ho)|].
        injection E as -> ->. split; [lra|].
        apply lookup_lt_Some in Hi. lia.
    + destruct H as [-> Hnone]. cbn [above fst snd homo_found].
      exists energy, occ. split; [apply list_lookup_middle; reflexivity|].
      split; [exact Hocc|]. split; [reflexivity|].
      intros j e o Hj Ho. apply lookup_snoc_inv in Hj.
      destruct Hj as [[Hjl Hj]|[-> E]]; [destruct (Hnone j e o Hj Ho)|].
      injection E as -> ->. split; [lra | lia].
  - cbn [fst snd]. destruct homo_idx as [i|]; cbn [homo_found] in *.
    + destruct H as (e0 & o0 & Hi & Ho0 & -> & Hmax).
      exists e0, o0.
      split; [rewrite lookup_app_l; [exact Hi | eapply lookup_lt_Some; exact Hi]|].
      split; [exact Ho0|]. split; [reflexivity|].
      intros j e o Hj Ho. apply lookup_snoc_inv in Hj.
      destruct Hj as [[Hjl Hj]|[-> E]]; [apply (Hmax j e o Hj Ho)|].
      injection E as -> ->. contradiction.
    + destruct H as [-> Hnone]. split; [reflexivity|].
      intros j e o Hj. apply lookup_snoc_inv in Hj.
      destruct Hj as [[Hjl Hj]|[-> E]]; [apply (Hnone j e o Hj)|].
      injection E as -> ->. exact Hocc.
Qed.

Lemma lumo_found_step seen lumo lumo_idx energy occ :
  lumo_found seen lumo lumo_idx ->
  lumo_found (seen ++ [(energy, occ)])
    (fst (if (if Req_dec_T occ 0 then true else false) && below energy lumo
          then (Finite energy, Some (length seen)) else (lumo, lumo_idx)))
    (snd (if (if Req_dec_T occ 0 then true else false) && below energy lumo
          then (Finite energy, Some (length seen)) else (lumo, lumo_idx))).
Proof.
  intros H.
  destruct (Req_dec_T occ 0) as [Hocc|Hocc]; cbn [andb].
  - destruct lumo_idx as [i|]; cbn [lumo_found] in H.
    + destruct H as (e0 & o0 & Hi & Ho0 & -> & Hmin). cbn [below].
      destruct (Rlt_dec energy e0) as [Hlt|Hge]; cbn [fst snd lumo_found].
      * exists energy, occ. split; [apply list_lookup_middle; reflexivity|].
        split; [exact Hocc|]. split; [reflexivity|].
        intros j e o Hj Ho. apply lookup_snoc_inv in Hj.
        destruct Hj as [[Hjl Hj]|[-> E]].
        -- destruct (Hmin j e o Hj Ho) as [Hle _]. split; [lra | intros _; lra].
        -- injection E as -> ->. split; [lra | lia].
      * exists e0, o0.
        split; [rewrite lookup_app_l; [exact Hi | eapply lookup_lt_Some; exact Hi]|].
        split; [exact Ho0|]. split; [reflexivity|].
        intros j e o Hj Ho. apply lookup_snoc_inv in Hj.
        destruct Hj as [[Hjl Hj]|[-> E]]; [apply (Hmin j e o Hj Ho)|].
        injection E as -> ->. split; [lra|].
        apply lookup_lt_Some in Hi. lia.
    + destruct H as [-> Hnone]. cbn [below fst snd lumo_found].
      exists energy, occ. split; [apply list_lookup_middle; reflexivity|].
      split; [exact Hocc|]. split; [reflexivity|].
      intros j e o Hj Ho. apply lookup_snoc_inv in Hj.
      destruct Hj as [[Hjl Hj]|[-> E]]; [destruct (Hnone j e o Hj Ho)|].
      injection E as -> ->. split; [lra | lia].
  - cbn [fst snd]. destruct lumo_idx as [i|]; cbn [lumo_found] in *.
    + destruct H as (e0 & o0 & Hi & Ho0 & -> & Hmin).
      exists e0, o0.
      split; [rewrite lookup_app_l; [exact Hi | eapply lookup_lt_Some; exact Hi]|].
      split; [exact Ho0|]. split; [reflexivity|].
      intros j e o Hj Ho. apply lookup_snoc_inv in Hj.
      destruct Hj as [[Hjl Hj]|[-> E]]; [apply (Hmin j e o Hj Ho)|].
      injection E as -> ->. contradiction.
    + destruct H as [-> Hnone]. split; [reflexivity|].
      intros j e o Hj. apply lookup_snoc_inv in Hj.
      destruct Hj as [[Hjl Hj]|[-> E]]; [apply (Hnone j e o Hj)|].
      injection E as -> ->. exact Hocc.
Qed.

Lemma homo_lumo_loop_found (rest : list (R * R)) :
  forall seen homo homo_idx lumo lumo_idx,
    homo_found seen homo homo_idx -> lumo_found seen lumo lumo_idx ->
    match homo_lumo_loop (length seen) rest homo homo_idx lumo lumo_idx with
    | (homo', homo_idx', lumo', lumo_idx') =>
        homo_found (seen ++ rest) homo' homo_idx' /\
        lumo_found (seen ++ rest) lumo' lumo_idx'
    end.
Proof.
  induction rest as [|[energy occ] rest IH];
    intros seen homo homo_idx lumo lumo_idx Hh Hl.
  - cbn. rewrite app_nil_r. auto.
  - cbn [homo_lumo_loop].
    pose proof (homo_found_step seen homo homo_idx energy occ Hh) as Hh'.
    pose proof (lumo_found_step seen lumo lumo_idx energy occ Hl) as Hl'.
    destruct (if (if Rlt_dec 0 occ then true else false) && above energy homo
              then (Finite energy, Some (length seen)) else (homo, homo_idx))
      as [homo1 homo_idx1].
    destruct (if (if Req_dec_T occ 0 then true else false) && below energy lumo
              then (Finite energy, Some (length seen)) else (lumo, lumo_idx))
      as [lumo1 lumo_idx1].
    cbn [fst snd] in Hh', Hl'.
    specialize (IH (seen ++ [(energy, occ)]) homo1 homo_idx1 lumo1 lumo_idx1 Hh' Hl').
    rewrite length_app, Nat.add_1_r, <- app_assoc in IH. exact IH.
Qed.

(** X21: [find_homo_lumo] returns as HOMO the highest energy among the
    orbitals with positive occupation and the first index where it is
    reached; with no such orbital it returns -inf and None. *)
Theorem find_homo_lumo_homo (mf : SCF) :
  match find_homo_lumo mf with
  | (homo, homo_idx, _, _) =>
      match homo_idx with
      | Some i =>
          exists energy occ,
            zip (mo_energy mf) (mo_occ mf) !! i = Some (energy, occ) /\
            0 < occ /\ homo = Finite energy /\
            forall j e o,
              zip (mo_energy mf) (mo_occ mf) !! j = Some (e, o) -> 0 < o ->
              e <= energy /\ ((j < i)%nat -> e < energy)
      | None =>
          homo = NegInf /\
          forall j e o,
            zip (mo_energy mf) (mo_occ mf) !! j = Some (e, o) -> ~ 0 < o
      end
  end.
Proof.
  unfold find_homo_lumo.
  pose proof (homo_lumo_loop_found (zip (mo_energy mf) (mo_occ mf))
                [] NegInf None PosInf None) as H.
  cbn [length app] in H.
  destruct (homo_lumo_loop 0 (zip (mo_energy mf) (mo_occ mf))
              NegInf None PosInf None) as [[[homo homo_idx] lumo] lumo_idx].
  destruct H as [Hh _].
  - split; [reflexivity|]. intros j e o Hj; discriminate.
  - split; [reflexivity|]. intros j e o Hj; discriminate.
  - exact Hh.
Qed.

(** X22: [find_homo_lumo] returns as LUMO the lowest energy among the
    orbitals with occupation zero and the first index where it is reached;
    with no such orbital it returns +inf and None. *)
Theorem find_homo_lumo_lumo (mf : SCF) :
  match find_homo_lumo mf with
  | (_, _, lumo, lumo_idx) =>
      match lumo_idx with
      | Some i =>
          exists energy occ,
            zip (mo_energy mf) (mo_occ mf) !! i = Some (energy, occ) /\
            occ = 0 /\ lumo = Finite energy /\
            forall j e o,
              zip (mo_energy mf) (mo_occ mf) !! j = Some (e, o) -> o = 0 ->
              energy <= e /\ ((j < i)%nat -> energy < e)
      | None =>
          lumo = PosInf /\
          forall j e o,
            zip (mo_energy mf) (mo_occ mf) !! j = Some (e, o) -> o <> 0
      end
  end.
Proof.
  unfold find_homo_lumo.
  pose proof (homo_lumo_loop_found (zip (mo_energy mf) (mo_occ mf))
                [] NegInf None PosInf None) as H.
  cbn [length app] in H.
  destruct (homo_lumo_loop 0 (zip (mo_energy mf) (mo_occ mf))
              NegInf None PosInf None) as [[[homo homo_idx] lumo] lumo_idx].
  destruct H as [_ Hl].
  - split; [reflexivity|]. intros j e o Hj; discriminate.
  - split; [reflexivity|]. intros j e o Hj; discriminate.
  - exact Hl.
Qed.

End FrontierOrbitals.

Example find_homo_lumo_four_orbitals :
  find_homo_lumo four_orbitals
  = (Finite (-1 / 2)%R, Some 1, Finite (3 / 10)%R, Some 2).
Proof.
  unfold find_homo_lumo, four_orbitals. cbn -[Rlt_dec Req_dec_T Rdiv IZR Ropp].
  unfold above, below.
  repeat (decide_Rlt; decide_Req; cbn -[Rlt_dec Req_dec_T Rdiv IZR Ropp]).
  reflexivity.
Qed.

(** ** The fingerprint notebook: the two grid functions *)

Section GridFacts.

Variable FindAtomEnvironmentOfRadiusN : Mol -> nat -> nat -> exn + list nat.
Variable Image : Type.
Variable MolsToGridImage : grid_call -> exn + Image.

Lemma append_environments_snoc h molecule results res :
  append_environments h molecule (results ++ [res])
  = append_environment (append_environments h molecule results) molecule res.
Proof. unfold append_environments. rewrite foldl_app. reflexivity. Qed.

Lemma append_environments_cons h molecule res results :
  append_environments h molecule (res :: results)
  = append_environments (append_environment h molecule res) molecule results.
Proof. reflexivity. Qed.

(** The five lists stay side by side. *)
Lemma append_environments_fields molecule results :
  forall h,
    atoms_to_highlight (append_environments h molecule results)
    = atoms_to_highlight h ++ ((fun r => fst (fst (fst r))) <$> results) /\
    bonds_to_highlight (append_environments h molecule results)
    = bonds_to_highlight h ++ ((fun r => snd (fst (fst r))) <$> results) /\
    atoms_to_highlight_colors (append_environments h molecule results)
    = atoms_to_highlight_colors h ++ ((fun r => snd (fst r)) <$> results) /\
    bonds_to_highlight_colors (append_environments h molecule results)
    = bonds_to_highlight_colors h ++ (snd <$> results) /\
    molecules_to_draw (append_environments h molecule results)
    = molecules_to_draw h ++ replicate (length results) molecule.
Proof.
  induction results as [|[[[atoms bonds] ac] bc] results IH]; intros h.
  - cbn. rewrite !app_nil_r. auto.
  - rewrite append_environments_cons.
    destruct (IH (append_environment h molecule (atoms, bonds, ac, bc)))
      as (H1 & H2 & H3 & H4 & H5).
    rewrite H1, H2, H3, H4, H5. cbn. rewrite <- !app_assoc. auto.
Qed.

(** Without a limit the loop handles every example in turn. *)
Lemma draw_loop_all (molecule : Mol) (examples : list (nat * nat)) :
  forall (i : nat) (h h' : highlights) (w w' : World),
    draw_loop FindAtomEnvironmentOfRadiusN molecule None i examples h w
    = (w', inr h') ->
    exists results,
      h' = append_environments h molecule results /\
      Forall2 (environment_of FindAtomEnvironmentOfRadiusN molecule)
        examples results.
Proof.
  induction examples as [|[center radius] examples IH]; intros i h h' w w' Hrun.
  - cbn in Hrun. unfold ret in Hrun. inversion Hrun; subst.
    exists []. split; [reflexivity | constructor].
  - cbn [draw_loop] in Hrun. unfold bind in Hrun.
    destruct (get_environment FindAtomEnvironmentOfRadiusN molecule center radius w)
      as [w1 [e|res]] eqn:Henv; [discriminate|].
    apply IH in Hrun. destruct Hrun as (results & -> & Hall).
    exists (res :: results). split; [reflexivity|].
    constructor; [exists w, w1; exact Henv | exact Hall].
Qed.

(** A limit cuts the examples; a limit below one leaves none. *)
Lemma draw_loop_limit (molecule : Mol) (m : Z) (examples : list (nat * nat)) :
  forall (i : nat) (h : highlights) (w : World),
    draw_loop FindAtomEnvironmentOfRadiusN molecule (Some m) i examples h w
    = draw_loop FindAtomEnvironmentOfRadiusN molecule None i
        (take (Z.to_nat m - i) examples) h w.
Proof.
  induction examples as [|[center radius] examples IH]; intros i h w.
  - rewrite take_nil. reflexivity.
  - cbn [draw_loop]. destruct (Z.ltb_spec m (Z.of_nat i + 1)) as [Hlt|Hge].
    + replace (Z.to_nat m - i) with 0 by lia. reflexivity.
    + replace (Z.to_nat m - i) with (S (Z.to_nat m - S i)) by lia.
      cbn [take draw_loop]. unfold bind.
      destruct (get_environment FindAtomEnvironmentOfRadiusN molecule center radius w)
        as [w1 [e|res]]; [reflexivity|]. apply IH.
Qed.

(** The examples the loop gets to. *)
Lemma draw_loop_shown (molecule : Mol) (max_examples : option Z)
    (examples : list (nat * nat)) (h h' : highlights) (w w' : World) :
  draw_loop FindAtomEnvironmentOfRadiusN molecule max_examples 0 examples h w
  = (w', inr h') ->
  exists results,
    h' = append_environments h molecule results /\
    Forall2 (environment_of FindAtomEnvironmentOfRadiusN molecule)
      (match max_examples with
       | Some m => take (Z.to_nat m) examples
       | None => examples
       end) results.
Proof.
  destruct max_examples as [m|].
  - rewrite draw_loop_limit, Nat.sub_0_r. apply draw_loop_all.
  - apply draw_loop_all.
Qed.

(** X23: when [draw_molecule_and_bit_info_grid] returns an image, [bit] is
    a key of [info] and the image is what MolsToGridImage makes of one cell
    per example shown: all the examples of the bit, or the first
    [max_examples] of them.  The molecule is repeated once per cell, the
    four highlight lists hold, cell by cell and in order, the results of
    [get_environment] for the examples, and there are
    min(mols_per_row, cells) cells per row. *)
Theorem draw_molecule_and_bit_info_grid_cells
    (molecule : Mol) (info : gmap nat (list (nat * nat))) (bit : nat)
    (max_examples : option Z) (mols_per_row : nat) (w w' : World)
    (image : Image) :
  draw_molecule_and_bit_info_grid FindAtomEnvironmentOfRadiusN Image
    MolsToGridImage molecule info bit max_examples mols_per_row w
  = (w', inr image) ->
  exists examples results call,
    info !! bit = Some examples /\
    Forall2 (environment_of FindAtomEnvironmentOfRadiusN molecule)
      (match max_examples with
       | Some m => take (Z.to_nat m) examples
       | None => examples
       end) results /\
    MolsToGridImage call = inr image /\
    mols call = replicate (length results) molecule /\
    molsPerRow call = Nat.min mols_per_row (length results) /\
    highlightAtomLists call = (fun r => fst (fst (fst r))) <$> results /\
    highlightBondLists call = (fun r => snd (fst (fst r))) <$> results /\
    highlightAtomColors call = (fun r => snd (fst r)) <$> results /\
    highlightBondColors call = snd <$> results /\
    legends call = None /\ subImgSize call = (200, 200).
Proof.
  unfold draw_molecule_and_bit_info_grid.
  destruct (info !! bit) as [examples|]; [|discriminate].
  destruct (draw_loop _ molecule max_examples 0 examples no_highlights w)
    as [w1 [e|h]] eqn:Hloop; [discriminate|].
  apply draw_loop_shown in Hloop. destruct Hloop as (results & -> & Hall).
  cbv zeta.
  match goal with
  | |- context [MolsToGridImage ?c] =>
      set (call := c); destruct (MolsToGridImage call) as [e|img] eqn:Hcall
  end; [discriminate|].
  intros H; inversion H; subst; clear H.
  destruct (append_environments_fields molecule results no_highlights)
    as (H1 & H2 & H3 & H4 & H5).
  exists examples, results, call.
  split; [reflexivity|]. split; [exact Hall|]. split; [exact Hcall|].
  unfold call; cbn [mols molsPerRow highlightAtomLists highlightBondLists
                    highlightAtomColors highlightBondColors legends subImgSize].
  rewrite H1, H2, H3, H4, H5. cbn [no_highlights atoms_to_highlight
    bonds_to_highlight atoms_to_highlight_colors bonds_to_highlight_colors
    molecules_to_draw app].
  rewrite length_replicate. repeat split; reflexivity.
Qed.

(** X24: [draw_molecule_and_bit_info_grid] raises KeyError for a bit that
    is not in [info], and with [max_examples] below one it computes no
    environment: MolsToGridImage is called with no molecule and zero
    molecules per row. *)
Theorem draw_molecule_and_bit_info_grid_edges
    (molecule : Mol) (info : gmap nat (list (nat * nat))) (bit : nat)
    (max_examples : option Z) (mols_per_row : nat) (w : World) :
  (info !! bit = None ->
   draw_molecule_and_bit_info_grid FindAtomEnvironmentOfRadiusN Image
     MolsToGridImage molecule info bit max_examples mols_per_row w
   = (w, inl KeyError)) /\
  (forall m examples,
     info !! bit = Some examples -> max_examples = Some m -> (m < 1)%Z ->
     draw_molecule_and_bit_info_grid FindAtomEnvironmentOfRadiusN Image
       MolsToGridImage molecule info bit max_examples mols_per_row w
     = (w, match MolsToGridImage
                   {| mols := []; molsPerRow := 0; subImgSize := (200, 200);
                      legends := None; highlightAtomLists := [];
                      highlightBondLists := []; highlightAtomColors := [];
                      highlightBondColors := [];
                      drawOptions := {| prepareMolsForDrawing := true;
                                        fillHighlights := true |} |}
           with
           | inl e => inl (Raised e)
           | inr image => inr image
           end)).
Proof.
  unfold draw_molecule_and_bit_info_grid. split.
  - intros ->. reflexivity.
  - intros m examples -> -> Hm.
    rewrite draw_loop_limit. replace (Z.to_nat m - 0) with 0 by lia.
    rewrite take_0. cbn [draw_loop]. unfold ret. cbv zeta.
    cbn [no_highlights molecules_to_draw atoms_to_highlight bonds_to_highlight
         atoms_to_highlight_colors bonds_to_highlight_colors length].
    rewrite Nat.min_0_r.
    destruct (MolsToGridImage _); reflexivity.
Qed.

End GridFacts.

Section ShowAllOnBits.

Variable FindAtomEnvironmentOfRadiusN : Mol -> nat -> nat -> exn + list nat.
Variable Image : Type.
Variable MolsToGridImage : grid_call -> exn + Image.

(** The loop over the sorted bits: one legend and one environment per bit,
    from the first example of the bit. *)
Lemma show_loop (molecule : Mol) (info : gmap nat (list (nat * nat)))
    (keys : list nat) :
  forall (h h' : highlights) (legend_list legend_list' : list string)
         (w w' : World),
    for_each keys
      (fun '(h, legends) key =>
         do example <- first_example info key ;;
         match example with
         | (center, radius) =>
             let legends := legends ++ ["Bit " +:+ pretty key] in
             do env <- get_environment FindAtomEnvironmentOfRadiusN
                         molecule center radius ;;
             ret (append_environment h molecule env, legends)
         end)
      (h, legend_list) w = (w', inr (h', legend_list')) ->
    exists results,
      h' = append_environments h molecule results /\
      legend_list' = legend_list ++ ((fun k => "Bit " +:+ pretty k) <$> keys) /\
      Forall2 (fun key res =>
                 exists example rest,
                   info !! key = Some (example :: rest) /\
                   environment_of FindAtomEnvironmentOfRadiusN molecule
                     example res)
        keys results.
Proof.
  induction keys as [|key keys IH]; intros h h' ll ll' w w' Hrun.
  - cbn in Hrun. unfold ret in Hrun. inversion Hrun; subst.
    exists []. rewrite app_nil_r. repeat split; constructor.
  - cbn [for_each] in Hrun. unfold bind at 1 in Hrun.
    unfold bind at 1 in Hrun. unfold first_example at 1 in Hrun.
    destruct (info !! key) as [[|[center radius] rest]|] eqn:Hkey;
      try (unfold raise in Hrun; discriminate).
    unfold ret at 1 in Hrun. unfold bind at 1 in Hrun.
    destruct (get_environment FindAtomEnvironmentOfRadiusN molecule center radius w)
      as [w1 [e|res]] eqn:Henv; [discriminate|].
    unfold ret at 1 in Hrun.
    apply IH in Hrun. destruct Hrun as (results & -> & -> & Hall).
    exists (res :: results).
    split; [reflexivity|]. split; [cbn; rewrite <- app_assoc; reflexivity|].
    constructor; [|exact Hall].
    exists (center, radius), rest. split; [exact Hkey|].
    exists w, w1. exact Henv.
Qed.

(** X25: when [show_all_on_bits] returns an image, every bit of [info] has
    an example and the image is what MolsToGridImage makes of one cell per
    bit, in ascending order of the bits: the legends are "Bit k" in that
    order, each cell shows the environment of the first example of its
    bit, and there are min(5, number of bits) cells per row. *)
Theorem show_all_on_bits_cells
    (molecule : Mol) (info : gmap nat (list (nat * nat))) (w w' : World)
    (image : Image) :
  show_all_on_bits FindAtomEnvironmentOfRadiusN Image MolsToGridImage
    molecule info w = (w', inr image) ->
  exists keys results call,
    Sorted Nat.le keys /\ keys ≡ₚ elements (dom info) /\
    Forall2 (fun key res =>
               exists example rest,
                 info !! key = Some (example :: rest) /\
                 environment_of FindAtomEnvironmentOfRadiusN molecule
                   example res)
      keys results /\
    MolsToGridImage call = inr image /\
    legends call = Some ((fun k => "Bit " +:+ pretty k) <$> keys) /\
    mols call = replicate (size info) molecule /\
    molsPerRow call = Nat.min 5 (size info) /\
    highlightAtomLists call = (fun r => fst (fst (fst r))) <$> results /\
    highlightBondLists call = (fun r => snd (fst (fst r))) <$> results /\
    highlightAtomColors call = (fun r => snd (fst r)) <$> results /\
    highlightBondColors call = snd <$> results /\
    subImgSize call = (150, 150).
Proof.
  unfold show_all_on_bits. unfold bind at 1.
  match goal with
  | |- context [for_each (sorted_keys info) ?body ?init w] =>
      destruct (for_each (sorted_keys info) body init w)
        as [w1 [e|[h legend_list]]] eqn:Hloop
  end; [discriminate|].
  apply show_loop in Hloop. destruct Hloop as (results & -> & -> & Hall).
  cbv zeta. unfold lift.
  match goal with
  | |- context [MolsToGridImage ?c] => set (call := c)
  end.
  intros H; injection H as Hw Hcall; subst w'.
  destruct (append_environments_fields molecule results no_highlights)
    as (H1 & H2 & H3 & H4 & H5).
  assert (Hperm : sorted_keys info ≡ₚ elements (dom info))
    by apply merge_sort_Permutation.
  assert (Hlen : length results = size info).
  { rewrite <- (Forall2_length _ _ _ Hall), Hperm.
    change (length (elements (dom info))) with (size (dom info)).
    apply size_dom. }
  exists (sorted_keys info), results, call.
  split; [apply Sorted_merge_sort; apply _|].
  split; [exact Hperm|]. split; [exact Hall|]. split; [exact Hcall|].
  unfold call; cbn [mols molsPerRow highlightAtomLists highlightBondLists
                    highlightAtomColors highlightBondColors legends subImgSize].
  rewrite H1, H2, H3, H4, H5. cbn [no_highlights atoms_to_highlight
    bonds_to_highlight atoms_to_highlight_colors bonds_to_highlight_colors
    molecules_to_draw app].
  rewrite length_replicate, Hlen. repeat split; reflexivity.
Qed.

End ShowAllOnBits.

Lemma get_atom_colors_raises_iff_witness :
  ((exists a, a ∈ [0; 7] /\ is_center None a = false /\
              length (mol_atoms chain3) <= a)) /\
  get_atom_colors chain3 [0; 7] None empty_world
  = (empty_world, inl RuntimeError).
Proof.
  assert (H : exists a, a ∈ [0; 7] /\ is_center None a = false /\
                        length (mol_atoms chain3) <= a).
  { exists 7. split; [set_solver|]. split; [reflexivity | simpl; lia]. }
  split; [exact H|].
  exact (proj2 (get_atom_colors_raises_iff chain3 [0; 7] None empty_world) H).
Defined.

Lemma draw_molecule_and_bit_info_grid_cells_witness :
  draw_molecule_and_bit_info_grid chain3_env nat count_cells chain3 two_bits
    1043 (Some 1%Z) 3 empty_world = (empty_world, inr 1) /\
  exists examples results call,
    two_bits !! 1043 = Some examples /\
    Forall2 (environment_of chain3_env chain3)
      (take (Z.to_nat 1) examples) results /\
    count_cells call = inr 1 /\
    mols call = replicate (length results) chain3 /\
    molsPerRow call = Nat.min 3 (length results).
Proof.
  assert (Hrun : draw_molecule_and_bit_info_grid chain3_env nat count_cells
                   chain3 two_bits 1043 (Some 1%Z) 3 empty_world
                 = (empty_world, inr 1)) by (vm_compute; reflexivity).
  split; [exact Hrun|].
  destruct (draw_molecule_and_bit_info_grid_cells chain3_env nat count_cells
              chain3 two_bits 1043 (Some 1%Z) 3 empty_world empty_world 1 Hrun)
    as (examples & results & call & H1 & H2 & H3 & H4 & H5 & _).
  exists examples, results, call. auto.
Defined.

Lemma draw_molecule_and_bit_info_grid_edges_witness :
  two_bits !! 5 = None /\
  draw_molecule_and_bit_info_grid chain3_env nat count_cells chain3 two_bits
    5 None 3 empty_world = (empty_world, inl KeyError).
Proof.
  assert (H : two_bits !! 5 = None) by (vm_compute; reflexivity).
  split; [exact H|].
  exact (proj1 (draw_molecule_and_bit_info_grid_edges chain3_env nat count_cells
                  chain3 two_bits 5 None 3 empty_world) H).
Defined.

Lemma show_all_on_bits_cells_witness :
  show_all_on_bits chain3_env nat count_cells chain3 two_bits empty_world
  = (empty_world, inr 2) /\
  exists keys call,
    Sorted Nat.le keys /\ keys ≡ₚ elements (dom two_bits) /\
    count_cells call = inr 2 /\
    legends call = Some ((fun k => "Bit " +:+ pretty k) <$> keys).
Proof.
  assert (Hrun : show_all_on_bits chain3_env nat count_cells chain3 two_bits
                   empty_world = (empty_world, inr 2))
    by (vm_compute; reflexivity).
  split; [exact Hrun|].
  destruct (show_all_on_bits_cells chain3_env nat count_cells chain3 two_bits
              empty_world empty_world 2 Hrun)
    as (keys & results & call & H1 & H2 & H3 & H4 & H5 & _).
  exists keys, call. auto.
Defined.

Example show_all_on_bits_legends :
  sorted_keys two_bits = [7; 1043] /\
  (fun k => "Bit " +:+ pretty k) <$> sorted_keys two_bits
  = ["Bit 7"; "Bit 1043"].
Proof. split; vm_compute; reflexivity. Qed.

